(** * Aho-Corasick multi-pattern matcher (aho-corasick.py)

    A shallow embedding of the [AhoCorasick] class: the trie builder, the
    breadth-first failure-link builder and the search loop, followed by the
    invariants of the automaton and the properties of [search].

    Conventions of the embedding:
    - a Python [str] is a list of code points ([symbol] = [N]);
    - a Python [dict] is an association list in insertion order, because
      the failure-link builder iterates [items()];
    - the three tables [trie], [fail], [output] are lists indexed by node id;
      an index out of range or a missing key is [None] (the exception the
      interpreter would raise);
    - [for] loops are folds over the iterated list; the [while] loops take a
      [fuel] argument and give [None] when it runs out.

    The pure helpers of the demonstration script (main.py), [group_matches]
    and [snippet_with_highlight], are embedded after the class. *)

From Stdlib Require Import ZArith Lia.
From Stdlib Require Import Strings.Ascii Strings.String.
From stdpp Require Import base tactics numbers strings option sets sorting list.

Local Open Scope Z_scope.
Local Open Scope nat_scope.

(** ** Symbols, strings and dictionaries *)

Definition symbol := N.

(** The code points of a string literal. *)
Definition str (s : string) : list symbol :=
  map N_of_ascii (list_ascii_of_string s).

(** [string.printable]: digits, ascii letters, punctuation, whitespace. *)
Definition printable : list symbol :=
  str "0123456789abcdefghijklmnopqrstuvwxyzABCDEFGHIJKLMNOPQRSTUVWXYZ!"
  ++ [34%N]
  ++ str "#$%&'()*+,-./:;<=>?@[\]^_`{|}~ "
  ++ [9%N; 10%N; 13%N; 11%N; 12%N].

Abbreviation dict := (list (symbol * nat)).

(** [d.get(c)] *)
Fixpoint dict_get (d : dict) (c : symbol) : option nat :=
  match d with
  | [] => None
  | (k, v) :: d' => if decide (k = c) then Some v else dict_get d' c
  end.

(** [c in d] *)
Definition dict_mem (d : dict) (c : symbol) : bool :=
  match dict_get d c with Some _ => true | None => false end.

(** [d[c] = v]: an existing key keeps its place, a new key goes last. *)
Fixpoint dict_set (d : dict) (c : symbol) (v : nat) : dict :=
  match d with
  | [] => [(c, v)]
  | (k, x) :: d' =>
      if decide (k = c) then (k, v) :: d' else (k, x) :: dict_set d' c v
  end.

(** [l[i] = x] on a Python list: [IndexError] when [i] is out of range. *)
Definition set_item {A} (l : list A) (i : nat) (x : A) : option (list A) :=
  if decide (i < length l) then Some (<[i:=x]> l) else None.

(** A [for] loop whose body may raise, threading the loop state. *)
Fixpoint for_each {A S} (body : A → S → option S) (l : list A) (s : S)
  : option S :=
  match l with
  | [] => Some s
  | x :: l' => s' ← body x s; for_each body l' s'
  end.

Fixpoint enumerate_from {A} (i : nat) (l : list A) : list (nat * A) :=
  match l with
  | [] => []
  | x :: l' => (i, x) :: enumerate_from (S i) l'
  end.

Definition enumerate {A} (l : list A) : list (nat * A) := enumerate_from 0 l.

(** ** The automaton *)

Record AhoCorasick := mkAhoCorasick {
  patterns : list (list symbol);
  trie : list dict;
  fail : list nat;
  output : list (list nat)
}.

Definition with_fail (ac : AhoCorasick) (f : list nat) : AhoCorasick :=
  mkAhoCorasick (patterns ac) (trie ac) f (output ac).

Definition with_output (ac : AhoCorasick) (o : list (list nat)) : AhoCorasick :=
  mkAhoCorasick (patterns ac) (trie ac) (fail ac) o.

Definition with_trie (ac : AhoCorasick) (t : list dict) : AhoCorasick :=
  mkAhoCorasick (patterns ac) t (fail ac) (output ac).

(** *** build_trie *)

(** Lines 28-31: allocate a node and hang it under [node] on [character]. *)
Definition new_node (ac : AhoCorasick) (node : nat) (character : symbol)
  : option AhoCorasick :=
  d ← trie ac !! node;
  Some (mkAhoCorasick (patterns ac)
          (<[node := dict_set d character (length (trie ac))]> (trie ac) ++ [[]])
          (fail ac ++ [0])
          (output ac ++ [[]])).

(** Lines 26-32: one symbol of a pattern. *)
Definition trie_step (character : symbol) (st : AhoCorasick * nat)
  : option (AhoCorasick * nat) :=
  let '(ac, node) := st in
  d ← trie ac !! node;
  ac' ← (if dict_mem d character then Some ac else new_node ac node character);
  d' ← trie ac' !! node;
  node' ← dict_get d' character;
  Some (ac', node').

(** Lines 24-33: one pattern. *)
Definition trie_insert (ip : nat * list symbol) (ac : AhoCorasick)
  : option AhoCorasick :=
  let '(pattern_index, pattern) := ip in
  '(ac', node) ← for_each trie_step pattern (ac, 0);
  o ← output ac' !! node;
  Some (with_output ac' (<[node := o ++ [pattern_index]]> (output ac'))).

Definition build_trie (ac : AhoCorasick) : option AhoCorasick :=
  let ac := with_output ac (map (λ _, []) (trie ac)) in
  for_each trie_insert (enumerate (patterns ac)) ac.

(** *** build_fail_links *)

(** Lines 42-44: a direct child of the root. *)
Definition seed_child (kv : symbol * nat) (st : AhoCorasick * list nat)
  : option (AhoCorasick * list nat) :=
  let '(ac, queue) := st in
  let '(_, child) := kv in
  f ← set_item (fail ac) child 0;
  Some (with_fail ac f, queue ++ [child]).

(** Lines 49-50: the root's entry for one symbol of the alphabet. *)
Definition root_default (character : symbol) (ac : AhoCorasick)
  : option AhoCorasick :=
  d ← trie ac !! 0;
  if dict_mem d character then Some ac
  else Some (with_trie ac (<[0 := dict_set d character 0]> (trie ac))).

(** Lines 60-61 and 81-82:
    [while node != 0 and character not in self.trie[node]:
       node = self.fail[node]]. *)
Fixpoint follow_fail (fuel : nat) (ac : AhoCorasick) (node : nat)
  (character : symbol) : option nat :=
  match fuel with
  | 0 => None
  | S fuel' =>
      if decide (node = 0) then Some node
      else
        d ← trie ac !! node;
        if dict_mem d character then Some node
        else
          f ← fail ac !! node;
          follow_fail fuel' ac f character
  end.

(** Lines 62 and 83: [self.trie[node].get(character, 0)]. *)
Definition goto (ac : AhoCorasick) (node : nat) (character : symbol)
  : option nat :=
  d ← trie ac !! node;
  Some (default 0 (dict_get d character)).

(** Lines 56-66: one child of the node taken from the queue. *)
Definition link_child (fuel : nat) (current : nat) (kv : symbol * nat)
  (st : AhoCorasick * list nat) : option (AhoCorasick * list nat) :=
  let '(ac, queue) := st in
  let '(character, child) := kv in
  let queue := queue ++ [child] in
  fail_state ← fail ac !! current;
  fail_state ← follow_fail fuel ac fail_state character;
  fail_state ← goto ac fail_state character;
  f ← set_item (fail ac) child fail_state;
  let ac := with_fail ac f in
  o ← output ac !! child;
  inherited ← output ac !! fail_state;
  Some (with_output ac (<[child := o ++ inherited]> (output ac)), queue).

(** Lines 53-66: the breadth-first loop; [steps] bounds its iterations. *)
Fixpoint bfs (steps : nat) (fuel : nat) (ac : AhoCorasick) (queue : list nat)
  : option AhoCorasick :=
  match queue with
  | [] => Some ac
  | current :: queue' =>
      match steps with
      | 0 => None
      | S steps' =>
          d ← trie ac !! current;
          '(ac', queue'') ← for_each (link_child fuel current) d (ac, queue');
          bfs steps' fuel ac' queue''
      end
  end.

Definition build_fail_links (fuel : nat) (ac : AhoCorasick)
  : option AhoCorasick :=
  d ← trie ac !! 0;
  '(ac, queue) ← for_each seed_child d (ac, []);
  ac ← for_each root_default printable ac;
  bfs fuel fuel ac queue.

(** [__init__].  [self.output] is only declared there; [build_trie] gives it
    its first value, so the value it starts from here is never read. *)
Definition init (fuel : nat) (pats : list (list symbol))
  : option AhoCorasick :=
  let ac := mkAhoCorasick pats [[]] [0] [] in
  ac ← build_trie ac;
  build_fail_links fuel ac.

(** *** search *)

(** Lines 87-88. *)
Definition emit (ac : AhoCorasick) (position : nat) (pattern_index : nat)
  (matches : list (Z * nat)) : option (list (Z * nat)) :=
  p ← patterns ac !! pattern_index;
  let start := (Z.of_nat position - Z.of_nat (length p) + 1)%Z in
  Some (matches ++ [(start, pattern_index)]).

(** Lines 79-88: one symbol of the text. *)
Definition search_step (fuel : nat) (ac : AhoCorasick) (pc : nat * symbol)
  (st : nat * list (Z * nat)) : option (nat * list (Z * nat)) :=
  let '(position, character) := pc in
  let '(node, matches) := st in
  node ← follow_fail fuel ac node character;
  node ← goto ac node character;
  outs ← output ac !! node;
  matches ← for_each (emit ac position) outs matches;
  Some (node, matches).

Definition search (fuel : nat) (ac : AhoCorasick) (text : list symbol)
  : option (list (Z * nat)) :=
  '(_, matches) ← for_each (search_step fuel ac) (enumerate text) (0, []);
  Some matches.

(** The value of [node] when the loop of [search] has read [text]. *)
Definition state_after (fuel : nat) (ac : AhoCorasick) (text : list symbol)
  : option nat :=
  '(node, _) ← for_each (search_step fuel ac) (enumerate text) (0, []);
  Some node.

(** Both phases on one input: [AhoCorasick(pats).search(text)]. *)
Definition run (fuel : nat) (pats : list (list symbol)) (text : list symbol)
  : option (list (Z * nat)) :=
  ac ← init fuel pats;
  search fuel ac text.

(** ** The helpers of main.py *)

(** [l[i]] for a Python [int] index: a negative index counts from the end,
    an index out of range raises [IndexError]. *)
Definition getitem {A} (l : list A) (i : Z) : option A :=
  if decide (0 ≤ i)%Z then l !! Z.to_nat i
  else if decide (- Z.of_nat (length l) ≤ i)%Z
       then l !! Z.to_nat (Z.of_nat (length l) + i)
       else None.

(** A [defaultdict(list)] from pattern strings to start offsets, in
    insertion order. *)
Abbreviation groups_dict := (list (list symbol * list Z)).

(** [groups.get(pat)] *)
Fixpoint groups_get (groups : groups_dict) (pat : list symbol)
  : option (list Z) :=
  match groups with
  | [] => None
  | (k, v) :: groups' =>
      if decide (k = pat) then Some v else groups_get groups' pat
  end.

(** [groups[pat].append(start)]: a missing key starts from the empty list. *)
Fixpoint groups_append (groups : groups_dict) (pat : list symbol) (start : Z)
  : groups_dict :=
  match groups with
  | [] => [(pat, [start])]
  | (k, v) :: groups' =>
      if decide (k = pat) then (k, v ++ [start]) :: groups'
      else (k, v) :: groups_append groups' pat start
  end.

(** main.py, lines 26-28: one match. *)
Definition group_step (pats : list (list symbol)) (m : Z * Z)
  (groups : groups_dict) : option groups_dict :=
  let '(start, pidx) := m in
  pat ← getitem pats pidx;
  Some (groups_append groups pat start).

(** [list.sort()] on integers: the ascending rearrangement. *)
Definition sort (l : list Z) : list Z := merge_sort Z.le l.

(** main.py, lines 20-31. *)
Definition group_matches (matches : list (Z * Z)) (pats : list (list symbol))
  : option groups_dict :=
  groups ← for_each (group_step pats) matches [];
  Some (map (λ kv, (kv.1, sort kv.2)) groups).

(** The matches of [search] as pairs of Python integers. *)
Definition as_ints (ms : list (Z * nat)) : list (Z * Z) :=
  map (λ m, (m.1, Z.of_nat m.2)) ms.

(** A bound of a slice [l[lo:hi]]: negative bounds count from the end, and
    every bound is clipped to the list. *)
Definition slice_bound (n : nat) (i : Z) : nat :=
  if decide (i < 0)%Z then Z.to_nat (Z.max 0 (Z.of_nat n + i))
  else Z.to_nat (Z.min (Z.of_nat n) i).

(** [l[lo:hi]] for any two Python integers. *)
Definition py_slice {A} (l : list A) (lo hi : Z) : list A :=
  take (slice_bound (length l) hi - slice_bound (length l) lo)
       (drop (slice_bound (length l) lo) l).

(** A [rich.text.Text] as the sequence of the strings handed to it, in the
    order of the calls, each with the style it was given ([None] for a
    string appended as a plain [str]).  An empty string is recorded like any
    other; what the library does with the strings afterwards is not
    modelled. *)
Abbreviation Text := (list (list symbol * option string)).

(** The one-symbol strings ["…"] and the double quote. *)
Definition ellipsis : list symbol := [8230%N].
Definition quote : list symbol := [34%N].

(** main.py, lines 34-58. *)
Definition snippet_with_highlight (text : list symbol)
  (start length_ context : Z) : Text :=
  let end_ := (start + length_)%Z in
  let s := Z.max 0 (start - context) in
  let e := Z.min (Z.of_nat (length text)) (end_ + context) in
  let snippet : Text := [] in
  let snippet :=
    if decide (s > 0)%Z then snippet ++ [(ellipsis, None)] else snippet in
  let snippet := snippet ++ [(py_slice text s start, None)] in
  let matched : Text := [(py_slice text start end_, Some "bold cyan"%string)] in
  let snippet := snippet ++ matched in
  let snippet := snippet ++ [(py_slice text end_ e, None)] in
  let snippet :=
    if decide (e < Z.of_nat (length text))%Z
    then snippet ++ [(ellipsis, None)] else snippet in
  let quoted : Text := [(quote, None)] in
  let quoted := quoted ++ snippet in
  quoted ++ [(quote, None)].


(** * Specification

    The predicates used to state and prove the properties of the automaton. *)

(** ** The trie as a labelled tree

    [words] is a ghost labelling: [words !! n] is the string spelled by the
    path from the root to node [n].  Edges into node 0 (the entries that
    [build_fail_links] adds to the root) are outside the tree. *)

Record trie_ok (tr : list dict) (words : list (list symbol)) : Prop := {
  tk_len : length tr = length words;
  tk_root : words !! 0 = Some [];
  tk_inj : NoDup words;
  tk_keys : ∀ n d, tr !! n = Some d → NoDup d.*1;
  tk_edge : ∀ n d c m, tr !! n = Some d → dict_get d c = Some m → m ≠ 0 →
      ∃ w, words !! n = Some w ∧ words !! m = Some (w ++ [c]);
  tk_loop : ∀ n d c, tr !! n = Some d → dict_get d c = Some 0 → n = 0;
  tk_parent : ∀ m w c, words !! m = Some (w ++ [c]) →
      ∃ n d, words !! n = Some w ∧ tr !! n = Some d ∧ dict_get d c = Some m
}.

(** Total number of symbols in the patterns: it bounds the number of nodes
    besides the root and the depth of every node. *)
Definition total_len (pats : list (list symbol)) : nat :=
  sum_list_with length pats.

(** State of the tables once the first [k] patterns are inserted. *)
Record built_trie (pats : list (list symbol)) (k : nat) (ac : AhoCorasick)
    (words : list (list symbol)) : Prop := {
  bt_pats : patterns ac = pats;
  bt_ok : trie_ok (trie ac) words;
  bt_strict : ∀ n d c, trie ac !! n = Some d → dict_get d c ≠ Some 0;
  bt_fail : fail ac = replicate (length words) 0;
  bt_out_len : length (output ac) = length words;
  bt_direct : ∀ n o w i, output ac !! n = Some o → words !! n = Some w →
      (i ∈ o ↔ i < k ∧ pats !! i = Some w);
  bt_present : ∀ i p, i < k → pats !! i = Some p → p ∈ words;
  bt_prefix : ∀ w, w ∈ words → w = [] ∨ ∃ p, p ∈ pats ∧ w `prefix_of` p
}.

(** ** Failure links *)

(** [u] is the longest suffix of [t] that is a word of the trie. *)
Definition longest_suffix (words : list (list symbol)) (t u : list symbol)
  : Prop :=
  u `suffix_of` t ∧ u ∈ words ∧
  ∀ v, v `suffix_of` t → v ∈ words → v `suffix_of` u.

(** [u] is the longest proper suffix of [w] that is a word of the trie. *)
Definition longest_proper_suffix (words : list (list symbol))
    (w u : list symbol) : Prop :=
  u `suffix_of` w ∧ length u < length w ∧ u ∈ words ∧
  ∀ v, v `suffix_of` w → length v < length w → v ∈ words → v `suffix_of` u.

(** The failure link of node [n] is what the glossary says. *)
Definition fail_ok (words : list (list symbol)) (ac : AhoCorasick) (n : nat)
  : Prop :=
  ∃ w f u, words !! n = Some w ∧ fail ac !! n = Some f ∧
    words !! f = Some u ∧ longest_proper_suffix words w u.

(** Node [n] has its final failure link and output list: the indices put
    there by [build_trie] followed by the output list of its failure
    target (nothing is inherited by the direct children of the root).
    [F] is the set of nodes that are final so far. *)
Definition node_final (words : list (list symbol)) (out0 : list (list nat))
    (ac : AhoCorasick) (F : nat → Prop) (n : nat) : Prop :=
  ∃ w f u o inh, words !! n = Some w ∧ fail ac !! n = Some f ∧
    words !! f = Some u ∧ longest_proper_suffix words w u ∧ F f ∧
    out0 !! n = Some o ∧ output ac !! n = Some (o ++ inh) ∧
    (if decide (length w ≤ 1) then inh = [] else output ac !! f = Some inh).

(** Invariant of the traversal: the trie [tr] and the patterns do not change,
    the nodes in [F] are final, the others still have the output list
    [build_trie] gave them ([out0]). *)
Record links_inv (pats words : list (list symbol)) (tr : list dict)
    (out0 : list (list nat)) (ac : AhoCorasick) (F : nat → Prop) : Prop := {
  li_pats : patterns ac = pats;
  li_trie : trie ac = tr;
  li_fail_len : length (fail ac) = length words;
  li_out_len : length (output ac) = length words;
  li_root_in : F 0;
  li_root_fail : fail ac !! 0 = Some 0;
  li_root_out : output ac !! 0 = out0 !! 0;
  li_final : ∀ n, F n → n ≠ 0 → node_final words out0 ac F n;
  li_fresh : ∀ n, ¬ F n → output ac !! n = out0 !! n
}.

(** ** Scheduling of the breadth-first traversal *)

(** Node [p] is the parent of node [n] in the tree. *)
Definition parent_of (words : list (list symbol)) (p n : nat) : Prop :=
  ∃ wp c, words !! p = Some wp ∧ words !! n = Some (wp ++ [c]).

(** [processed] are the nodes already taken from the queue.  The queue
    holds nodes of one depth followed by nodes of the next depth, and a
    node has been enqueued exactly when its parent has been processed. *)
Record sched (words : list (list symbol)) (queue processed : list nat)
  : Prop := {
  sc_nodup : NoDup (processed ++ queue);
  sc_range : ∀ n, n ∈ processed ++ queue → n ≠ 0 ∧ is_Some (words !! n);
  sc_seen : ∀ n w, words !! n = Some w → n ≠ 0 →
    (n ∈ processed ++ queue ↔
     length w = 1 ∨ ∃ p, p ∈ processed ∧ parent_of words p n);
  sc_order : ∃ dd A B, queue = A ++ B ∧ 1 ≤ dd ∧
    (∀ n w, n ∈ A → words !! n = Some w → length w = dd) ∧
    (∀ n w, n ∈ B → words !! n = Some w → length w = S dd) ∧
    (∀ n w, words !! n = Some w → length w ≤ dd →
       n = 0 ∨ n ∈ processed ++ queue)
}.

(** ** The finished automaton *)

(** [ac] is the automaton obtained from the trie [ac0] of [build_trie]:
    same nodes and edges, entries to node 0 added to the root, every failure
    link and output list final. *)
Record automaton_ok (pats : list (list symbol)) (ac0 ac : AhoCorasick)
    (words : list (list symbol)) : Prop := {
  ao_trie0 : built_trie pats (length pats) ac0 words;
  ao_trie : trie_ok (trie ac) words;
  ao_root : ∃ d0 d, trie ac0 !! 0 = Some d0 ∧ trie ac = <[0 := d]> (trie ac0) ∧
      ∀ c m, dict_get d c = Some m ↔
        dict_get d0 c = Some m ∨
        (m = 0 ∧ dict_get d0 c = None ∧ c ∈ printable);
  ao_links : links_inv pats words (trie ac) (output ac0) ac
               (λ n, is_Some (words !! n))
}.

(** ** Matches *)

(** Line 87-88: the match reported for [pattern_index] at [position]. *)
Definition match_of (pats : list (list symbol)) (position pattern_index : nat)
    (m : Z * nat) : Prop :=
  ∃ p, pats !! pattern_index = Some p ∧
    m = ((Z.of_nat position - Z.of_nat (length p) + 1)%Z, pattern_index).

(** The result of [search]: one group of matches per text position, in
    scan order; the group of position [k] lists the output list of the
    state whose word is the longest suffix of [text[:k+1]] in the trie. *)
Definition search_groups (pats : list (list symbol)) (ac : AhoCorasick)
    (words : list (list symbol)) (text : list symbol)
    (groups : list (list (Z * nat))) : Prop :=
  length groups = length text ∧
  ∀ k g, groups !! k = Some g →
    ∃ nd w outs, words !! nd = Some w ∧
      longest_suffix words (take (S k) text) w ∧
      output ac !! nd = Some outs ∧ Forall2 (match_of pats k) outs g.

(** [text[lo:hi]] for [0 <= lo]. *)
Definition slice {A} (l : list A) (lo hi : Z) : list A :=
  take (Z.to_nat hi - Z.to_nat lo) (drop (Z.to_nat lo) l).

(** ** Stored children *)

(** Node 0 and the nodes hanging directly under it. *)
Definition root_or_child (ac0 : AhoCorasick) (n : nat) : Prop :=
  n = 0 ∨ ∃ d c, trie ac0 !! 0 = Some d ∧ dict_get d c = Some n.

(** The node reached from [node] along the entries labelled by [w]. *)
Fixpoint walk (tr : list dict) (node : nat) (w : list symbol) : option nat :=
  match w with
  | [] => Some node
  | c :: w' => d ← tr !! node; m ← dict_get d c; walk tr m w'
  end.

(** The entry [c ↦ m] of node [n] is an edge of the trie of the patterns:
    [n] spells [w], [m] spells [w ++ [c]], a prefix of some pattern. *)
Definition real_edge (pats : list (list symbol)) (tr : list dict)
    (n : nat) (c : symbol) (m : nat) : Prop :=
  ∃ p w, p ∈ pats ∧ w ++ [c] `prefix_of` p ∧
    walk tr 0 w = Some n ∧ walk tr 0 (w ++ [c]) = Some m.

(** ** Words of the trie, occurrences, groups *)

(** [w] is the empty string or a prefix of some pattern. *)
Definition pattern_prefix (pats : list (list symbol)) (w : list symbol)
  : Prop :=
  w = [] ∨ ∃ p, p ∈ pats ∧ w `prefix_of` p.

(** [p] occurs in [text] at offset [s]. *)
Definition occurs_at (text p : list symbol) (s : nat) : Prop :=
  ∃ pre post, text = pre ++ p ++ post ∧ length pre = s.

(** [i] is a valid Python index of [l]. *)
Definition index_ok {A} (l : list A) (i : Z) : Prop :=
  (- Z.of_nat (length l) ≤ i < Z.of_nat (length l))%Z.

(** The start offsets, in order, of the matches whose pattern string is
    [pat]. *)
Definition starts_of (pats : list (list symbol)) (matches : list (Z * Z))
    (pat : list symbol) : list Z :=
  (filter (λ m, getitem pats m.2 = Some pat) matches).*1.

(** No output list of [ac] repeats an index, and all indices are below
    [k]. *)
Definition fresh_outputs (k : nat) (ac : AhoCorasick) : Prop :=
  ∀ n o, output ac !! n = Some o → NoDup o ∧ ∀ i, i ∈ o → i < k.

(** ** Sample inputs *)

(** The patterns of the module's main block. *)
Definition he_she_his_hers : list (list symbol) :=
  [str "he"; str "she"; str "his"; str "hers"].

(** The automaton built from no pattern: the root alone, with an entry to
    itself for each symbol of [string.printable]. *)
Definition root_only : AhoCorasick :=
  mkAhoCorasick [] [map (λ c, (c, 0)) printable] [0] [[]].

(** * Proofs *)

(** ** The model at work *)

(** The alphabet has 100 symbols, all different. *)
Example printable_length : length printable = 100.
Proof. reflexivity. Qed.

Example printable_NoDup : NoDup printable.
Proof. apply (bool_decide_unpack (NoDup printable)). by vm_compute. Qed.

(** Overlapping occurrences: ["aa"] at 0, 1, 2, 3 and ["aaa"] at 0, 1, 2. *)
Example aa_aaa_overlaps :
  run 6 [str "aa"; str "aaa"] (str "aaaaa")
  = Some [(0%Z, 0); (0%Z, 1); (1%Z, 0); (1%Z, 1); (2%Z, 0); (2%Z, 1); (3%Z, 0)].
Proof. by vm_compute. Qed.

(** A symbol outside [string.printable] sends the automaton back to the
    root and yields no match. *)
Example symbol_outside_alphabet :
  run 3 [str "ab"] [97%N; 955%N; 97%N; 98%N] = Some [(2%Z, 0)].
Proof. by vm_compute. Qed.


(** ** Loops and dictionaries *)

(** Invariant rule for a [for] loop: [I done s] holds after the elements
    [done] have been handled. *)
Lemma for_each_inv {A S} (I : list A → S → Prop) (body : A → S → option S)
    l s :
  I [] s →
  (∀ done x rest s, l = done ++ x :: rest → I done s →
     ∃ s', body x s = Some s' ∧ I (done ++ [x]) s') →
  ∃ s', for_each body l s = Some s' ∧ I l s'.
Proof.
  intros H0 Hstep.
  assert (G : ∀ rest done s, l = done ++ rest → I done s →
            ∃ s', for_each body rest s = Some s' ∧ I l s').
  { induction rest as [|x rest IH]; intros done s0 -> HI; simpl.
    - rewrite app_nil_r. eauto.
    - destruct (Hstep done x rest s0 eq_refl HI) as (s1 & -> & HI1). simpl.
      apply (IH (done ++ [x])); [by rewrite <- app_assoc | done]. }
  by apply (G l []).
Qed.

Lemma length_enumerate_from {A} i (l : list A) :
  length (enumerate_from i l) = length l.
Proof. revert i. induction l; intros; simpl; auto. Qed.

Lemma enumerate_from_split {A} i (l : list A) done j x rest :
  enumerate_from i l = done ++ (j, x) :: rest →
  j = i + length done ∧ l !! length done = Some x ∧
  done = enumerate_from i (take (length done) l).
Proof.
  revert i done. induction l as [|y l IH]; intros i done; simpl.
  - by destruct done.
  - destruct done as [|[j0 y0] done]; simpl; intros [= ]; simplify_eq.
    + split; [lia | done].
    + edestruct IH as (-> & ? & ?); [done|].
      split; [lia|]. split; [done|]. by f_equal.
Qed.

Lemma dict_mem_true d c : dict_mem d c = true ↔ is_Some (dict_get d c).
Proof.
  unfold dict_mem. by destruct (dict_get d c).
Qed.

Lemma dict_mem_false d c : dict_mem d c = false ↔ dict_get d c = None.
Proof. unfold dict_mem. by destruct (dict_get d c). Qed.

Lemma dict_get_None d c : dict_get d c = None ↔ c ∉ d.*1.
Proof.
  induction d as [|[k v] d IH]; simpl.
  - split; [intros _; apply not_elem_of_nil | done].
  - rewrite not_elem_of_cons, <- IH. case_decide; subst.
    + split; [done | by intros [? _]].
    + split; [intros; split; [congruence | done] | by intros [_ ?]].
Qed.

Lemma dict_get_elem_of d c v : dict_get d c = Some v → (c, v) ∈ d.
Proof.
  induction d as [|[k x] d IH]; simpl; [done|].
  case_decide; intros; simplify_eq; [left | right; auto].
Qed.

Lemma elem_of_dict_get d c v : NoDup d.*1 → (c, v) ∈ d → dict_get d c = Some v.
Proof.
  induction d as [|[k x] d IH]; simpl; [by intros _ ?%elem_of_nil|].
  intros [Hk Hd]%NoDup_cons [?|Hin]%elem_of_cons; simplify_eq.
  - by rewrite decide_True.
  - rewrite decide_False; [auto|]. intros ->. apply Hk.
    apply list_elem_of_fmap. by exists (c, v).
Qed.

Lemma dict_set_fresh d c v : dict_get d c = None → dict_set d c v = d ++ [(c, v)].
Proof.
  induction d as [|[k x] d IH]; simpl; [done|].
  case_decide; [done|]. intros ?. f_equal. auto.
Qed.

Lemma dict_get_app d1 d2 c :
  dict_get (d1 ++ d2) c =
  match dict_get d1 c with Some v => Some v | None => dict_get d2 c end.
Proof.
  induction d1 as [|[k x] d1 IH]; simpl; [done|]. by case_decide.
Qed.

(** ** Suffixes *)

Lemma suffix_snoc_cases {A} (v t : list A) c :
  v `suffix_of` t ++ [c] → v = [] ∨ ∃ v', v = v' ++ [c] ∧ v' `suffix_of` t.
Proof.
  destruct (decide (v = [])) as [->|Hne]; [by left|]. right.
  destruct (exists_last Hne) as (v' & x & ->). exists v'.
  pose proof (suffix_snoc_inv_1 _ _ _ _ H) as ->.
  by apply suffix_snoc_inv_2 in H.
Qed.


Section TrieFacts.
Context {tr : list dict} {words : list (list symbol)}.
Hypothesis Hok : trie_ok tr words.

Lemma word_inj a b w : words !! a = Some w → words !! b = Some w → a = b.
Proof. intros Ha Hb. eapply NoDup_lookup; eauto using tk_inj. Qed.

Lemma word_nil_root n : words !! n = Some [] → n = 0.
Proof. intros Hn. eapply word_inj; eauto using tk_root. Qed.

Lemma node_dict n w : words !! n = Some w → ∃ d, tr !! n = Some d.
Proof.
  intros Hn%lookup_lt_Some. apply lookup_lt_is_Some.
  by rewrite (tk_len _ _ Hok).
Qed.

Lemma child_nonzero m w c : words !! m = Some (w ++ [c]) → m ≠ 0.
Proof.
  intros Hm ->. rewrite (tk_root _ _ Hok) in Hm. by destruct w.
Qed.

(** A node has an edge on [c] exactly when its word extended by [c] is
    in the trie. *)
Lemma edge_of_word n d w c :
  words !! n = Some w → tr !! n = Some d → w ++ [c] ∈ words →
  ∃ m, dict_get d c = Some m ∧ m ≠ 0 ∧ words !! m = Some (w ++ [c]).
Proof.
  intros Hn Hd [m Hm]%list_elem_of_lookup.
  destruct (tk_parent _ _ Hok _ _ _ Hm) as (n' & d' & Hn' & Hd' & Hg).
  assert (n' = n) as -> by eauto using word_inj. simplify_eq.
  eauto using child_nonzero.
Qed.

Lemma word_of_edge n d w c m :
  words !! n = Some w → tr !! n = Some d → dict_get d c = Some m → m ≠ 0 →
  words !! m = Some (w ++ [c]).
Proof.
  intros Hn Hd Hg Hm.
  destruct (tk_edge _ _ Hok _ _ _ _ Hd Hg Hm) as (w' & ? & ?). by simplify_eq.
Qed.

Lemma no_edge_no_word n d w c :
  words !! n = Some w → tr !! n = Some d → dict_get d c = None →
  w ++ [c] ∉ words.
Proof.
  intros Hn Hd Hg Hin.
  destruct (edge_of_word _ _ _ _ Hn Hd Hin) as (m & ? & _). congruence.
Qed.

Lemma words_prefix_closed w c : w ++ [c] ∈ words → w ∈ words.
Proof.
  intros [m Hm]%list_elem_of_lookup.
  destruct (tk_parent _ _ Hok _ _ _ Hm) as (n & _ & Hn & _).
  apply list_elem_of_lookup. eauto.
Qed.

Lemma words_nil : [] ∈ words.
Proof. apply list_elem_of_lookup. eauto using tk_root. Qed.
End TrieFacts.

(** ** The trie builder *)

Lemma new_node_trie_ok tr words node d w c :
  trie_ok tr words → tr !! node = Some d → words !! node = Some w →
  dict_get d c = None →
  trie_ok (<[node := dict_set d c (length tr)]> tr ++ [[]])
          (words ++ [w ++ [c]]).
Proof.
  intros Hok Hd Hw Hc. rewrite (dict_set_fresh _ _ _ Hc).
  pose proof (lookup_lt_Some _ _ _ Hd) as Hlt.
  pose proof (tk_len _ _ Hok) as Hlen.
  assert (Hfresh : w ++ [c] ∉ words) by eauto using no_edge_no_word.
  assert (Hlk : ∀ n d',
     (<[node := d ++ [(c, length tr)]]> tr ++ [[]]) !! n = Some d' →
     (n = node ∧ d' = d ++ [(c, length tr)]) ∨ (n ≠ node ∧ tr !! n = Some d')
     ∨ d' = []).
  { intros n d' [[_ H]|[_ <-]]%lookup_snoc_Some; [|by auto].
    apply list_lookup_insert_Some in H as [(<- & <- & _)|[? ?]]; auto. }
  split.
  - rewrite length_app, length_app, length_insert. simpl. lia.
  - rewrite lookup_app_l; [eauto using tk_root|]. by eapply lookup_lt_Some, tk_root.
  - apply NoDup_app. split; [eauto using tk_inj|]. split; [|apply NoDup_singleton].
    intros x Hx ->%list_elem_of_singleton. done.
  - intros n d' [[-> ->]|[[_ H]| ->]]%Hlk; [|eauto using tk_keys|constructor].
    rewrite fmap_app. apply NoDup_app. split; [eauto using tk_keys|].
    split; [|apply NoDup_singleton].
    intros x Hx ->%list_elem_of_singleton. by apply dict_get_None in Hc.
  - intros n d' c' m [[-> ->]|[[Hne H]| ->]]%Hlk Hg Hm; [| |done].
    + rewrite dict_get_app in Hg. destruct (dict_get d c') as [m'|] eqn:Hg'.
      * simplify_eq. destruct (tk_edge _ _ Hok _ _ _ _ Hd Hg' Hm) as (w' & ? & ?).
        exists w'. split; apply lookup_app_l_Some; done.
      * simpl in Hg. case_decide; simplify_eq. exists w.
        split; [by apply lookup_app_l_Some|].
        rewrite Hlen. apply lookup_snoc_Some. auto.
    + destruct (tk_edge _ _ Hok _ _ _ _ H Hg Hm) as (w' & ? & ?).
      exists w'. split; apply lookup_app_l_Some; done.
  - intros n d' c' [[-> ->]|[[Hne H]| ->]]%Hlk Hg; [|eauto using tk_loop|done].
    rewrite dict_get_app in Hg. destruct (dict_get d c') as [m'|] eqn:Hg'.
    + simplify_eq. eauto using tk_loop.
    + simpl in Hg. case_decide; simplify_eq. lia.
  - intros m w' c' [[Hm Hw']|[-> Heq]]%lookup_snoc_Some.
    + destruct (tk_parent _ _ Hok _ _ _ Hw') as (n & d' & Hn & Hd' & Hg).
      exists n. destruct (decide (n = node)) as [->|Hne].
      * simplify_eq. exists (d ++ [(c, length tr)]).
        split; [by apply lookup_app_l_Some|].
        split; [|by rewrite dict_get_app, Hg].
        rewrite lookup_app_l by (by rewrite length_insert).
        by apply list_lookup_insert_eq.
      * exists d'. split; [by apply lookup_app_l_Some|]. split; [|done].
        rewrite lookup_app_l by (rewrite length_insert; eauto using lookup_lt_Some).
        by rewrite list_lookup_insert_ne.
    + apply app_inj_tail in Heq as [-> ->].
      exists node, (d ++ [(c', length tr)]).
      split; [by apply lookup_app_l_Some|]. split.
      * rewrite lookup_app_l by (by rewrite length_insert).
        by apply list_lookup_insert_eq.
      * rewrite dict_get_app, Hc. simpl. rewrite decide_True by done.
        by rewrite Hlen.
Qed.

Lemma lookup_new_trie (tr : list dict) node x n d' :
  (<[node := x]> tr ++ [[]]) !! n = Some d' →
  (n = node ∧ d' = x) ∨ (n ≠ node ∧ tr !! n = Some d') ∨ d' = [].
Proof.
  intros [[_ H]|[_ <-]]%lookup_snoc_Some; [|by auto].
  apply list_lookup_insert_Some in H as [(<- & <- & _)|[? ?]]; auto.
Qed.


Lemma trie_step_ok pats k ac words node w c b :
  built_trie pats k ac words → words !! node = Some w →
  (∃ p, p ∈ pats ∧ w ++ [c] `prefix_of` p) → length words ≤ b →
  ∃ ac' node' words', trie_step c (ac, node) = Some (ac', node') ∧
    built_trie pats k ac' words' ∧ words' !! node' = Some (w ++ [c]) ∧
    length words' ≤ S b.
Proof.
  intros Hbt Hw Hp Hb. pose proof (bt_ok _ _ _ _ Hbt) as Hok.
  destruct (node_dict Hok _ _ Hw) as [d Hd].
  unfold trie_step. rewrite Hd. simpl.
  destruct (dict_mem d c) eqn:Hmem; simpl.
  - apply dict_mem_true in Hmem as [m Hm]. rewrite Hd. simpl. rewrite Hm. simpl.
    exists ac, m, words. split; [done|]. split; [done|]. split; [|lia].
    eapply word_of_edge; eauto. intros ->. by eapply bt_strict.
  - apply dict_mem_false in Hmem. unfold new_node. rewrite Hd. simpl.
    pose proof (lookup_lt_Some _ _ _ Hd) as Hlt.
    rewrite lookup_app_l by (by rewrite length_insert).
    rewrite list_lookup_insert_eq by done. simpl.
    rewrite (dict_set_fresh _ _ _ Hmem), dict_get_app, Hmem. simpl.
    rewrite decide_True by done. simpl.
    assert (Hfresh : w ++ [c] ∉ words) by eauto using no_edge_no_word.
    pose proof (tk_len _ _ Hok) as Hlen.
    eexists _, _, (words ++ [w ++ [c]]). split; [done|]. split; [split; simpl|].
    + eapply bt_pats; eauto.
    + rewrite <- (dict_set_fresh _ _ _ Hmem). by apply new_node_trie_ok.
    + intros n d' c' [[-> ->]|[[Hne H]| ->]]%lookup_new_trie Hg; [| |done].
      * rewrite dict_get_app in Hg. destruct (dict_get d c') eqn:Hg'.
        -- simplify_eq. by eapply bt_strict.
        -- simpl in Hg. case_decide; simplify_eq. lia.
      * by eapply bt_strict.
    + rewrite (bt_fail _ _ _ _ Hbt), length_app. simpl.
      by rewrite Nat.add_1_r, replicate_S_end.
    + rewrite !length_app, (bt_out_len _ _ _ _ Hbt). done.
    + intros n o w' i [[_ Ho]|[-> <-]]%lookup_snoc_Some
        [[_ Hw']|[Hn <-]]%lookup_snoc_Some.
      * eapply bt_direct; eauto.
      * apply lookup_lt_Some in Ho. rewrite (bt_out_len _ _ _ _ Hbt) in Ho. lia.
      * apply lookup_lt_Some in Hw'. rewrite (bt_out_len _ _ _ _ Hbt) in Hw'. lia.
      * split; [by intros ?%elem_of_nil|]. intros [Hi Hpi].
        destruct Hfresh. eapply bt_present; eauto.
    + intros i p Hi Hpi. apply elem_of_app. left. eapply bt_present; eauto.
    + intros w' [Hw'| ->%list_elem_of_singleton]%elem_of_app; [|by right].
      eapply bt_prefix; eauto.
    + split; [|rewrite length_app; simpl; lia].
      rewrite Hlen. apply lookup_snoc_Some. auto.
Qed.

Lemma trie_insert_ok pats k p ac words b :
  built_trie pats k ac words → pats !! k = Some p → length words ≤ b →
  ∃ ac' words', trie_insert (k, p) ac = Some ac' ∧
    built_trie pats (S k) ac' words' ∧ length words' ≤ b + length p.
Proof.
  intros Hbt Hp Hb. unfold trie_insert.
  destruct (for_each_inv
    (λ done '(ac', node), ∃ words', built_trie pats k ac' words' ∧
       words' !! node = Some done ∧ length words' ≤ b + length done)
    trie_step p (ac, 0)) as ([ac' node] & -> & words' & Hbt' & Hnode & Hb').
  { exists words. split; [done|]. split; [|simpl; lia].
    eauto using tk_root, bt_ok. }
  { intros done c rest [ac1 node1] -> (words1 & Hbt1 & Hn1 & Hb1).
    assert (Hpre : ∃ p, p ∈ pats ∧ done ++ [c] `prefix_of` p).
    { exists (done ++ c :: rest). split; [by eapply list_elem_of_lookup_2|].
      exists rest. by rewrite <- app_assoc. }
    destruct (trie_step_ok pats k ac1 words1 node1 done c _ Hbt1 Hn1 Hpre Hb1)
      as (ac2 & node2 & words2 & -> & ? & ? & ?).
    eexists (_, _). split; [done|]. exists words2.
    rewrite length_app. simpl. split; [done|]. split; [done|]. lia. }
  simpl. pose proof (bt_ok _ _ _ _ Hbt') as Hok.
  destruct (lookup_lt_is_Some_2 (output ac') node) as [o Ho].
  { rewrite (bt_out_len _ _ _ _ Hbt'). eauto using lookup_lt_Some. }
  rewrite Ho. simpl. eexists _, words'. split; [done|]. split; [|done].
  split; simpl; try (by destruct Hbt').
  - by rewrite length_insert, (bt_out_len _ _ _ _ Hbt').
  - intros n o' w i [(<- & <- & _)|[Hne Ho']]%list_lookup_insert_Some Hw.
    + simplify_eq. rewrite elem_of_app, list_elem_of_singleton.
      rewrite (bt_direct _ _ _ _ Hbt' _ _ _ i Ho Hnode).
      split; [intros [[? ?]| ->]; split; auto with lia|].
      intros [Hi ?]. destruct (decide (i = k)); [by right | left].
      split; [lia | done].
    + rewrite (bt_direct _ _ _ _ Hbt' _ _ _ i Ho' Hw).
      split; [intros [? ?]; split; auto with lia|].
      intros [Hi Hpi]. split; [|done].
      destruct (decide (i = k)) as [->|]; [|lia]. simplify_eq.
      destruct Hne. eauto using word_inj.
  - intros i p' Hi Hpi. destruct (decide (i = k)) as [->|].
    + simplify_eq. by eapply list_elem_of_lookup_2.
    + apply (bt_present _ _ _ _ Hbt' i); [lia | done].
Qed.

Lemma trie_ok_init : trie_ok [[]] [[]].
Proof.
  split; simpl; try done.
  - apply NoDup_singleton.
  - intros [|n] d; simpl; [|done]. intros [= <-]. constructor.
  - intros [|n] d c m; simpl; [|done]. by intros [= <-].
  - intros [|n] d c; simpl; [|done]. by intros [= <-].
  - intros [|m] w c; simpl; [|done]. intros [= H]. by destruct w.
Qed.

Lemma build_trie_ok pats o0 :
  ∃ ac words, build_trie (mkAhoCorasick pats [[]] [0] o0) = Some ac ∧
    built_trie pats (length pats) ac words ∧ length words ≤ S (total_len pats).
Proof.
  unfold build_trie. simpl.
  destruct (for_each_inv
    (λ done ac, ∃ words, built_trie pats (length done) ac words ∧
       length words ≤ S (total_len (take (length done) pats)))
    trie_insert (enumerate pats) (mkAhoCorasick pats [[]] [0] [[]]))
    as (ac & Hrun & words & Hbt & Hb).
  { exists [[]]. split; [|simpl; lia]. split; simpl; try done.
    - apply trie_ok_init.
    - intros [|n] d c; simpl; [|done]. by intros [= <-].
    - intros [|n] o w i; simpl; [|done]. intros [= <-] _.
      split; [by intros ?%elem_of_nil | lia].
    - lia.
    - intros w ->%list_elem_of_singleton. by left. }
  { intros done [j p] rest ac (Hj & Hp & _)%enumerate_from_split
      (words & Hbt & Hb). simpl in Hj. subst j.
    destruct (trie_insert_ok _ _ _ _ _ _ Hbt Hp Hb) as (ac' & words' & -> & ? & ?).
    exists ac'. split; [done|]. exists words'.
    rewrite length_app. simpl. rewrite Nat.add_1_r. split; [done|].
    rewrite (take_S_r _ _ _ Hp). unfold total_len in *.
    rewrite sum_list_with_app. simpl. lia. }
  exists ac, words. split; [done|].
  unfold enumerate in *. rewrite length_enumerate_from in *.
  rewrite take_ge in Hb by lia. done.
Qed.

(** ** Failure links and the transition function *)


Section Transition.
Context (ac : AhoCorasick) (words : list (list symbol)).
Hypothesis Hok : trie_ok (trie ac) words.

(** The [while] loop stops, within [fuel] rounds, at the longest suffix of
    the current word that has an edge on [c] (or at the root). *)
Lemma follow_fail_ok fuel c t : ∀ s ws,
  words !! s = Some ws → length ws < fuel →
  (∀ n w, words !! n = Some w → n ≠ 0 → length w ≤ length ws →
     fail_ok words ac n) →
  ws `suffix_of` t →
  (∀ v, v `suffix_of` t → v ++ [c] ∈ words → v `suffix_of` ws) →
  ∃ r wr d, follow_fail fuel ac s c = Some r ∧ words !! r = Some wr ∧
    wr `suffix_of` t ∧ length wr ≤ length ws ∧
    (∀ v, v `suffix_of` t → v ++ [c] ∈ words → v `suffix_of` wr) ∧
    trie ac !! r = Some d ∧ (r = 0 ∨ is_Some (dict_get d c)).
Proof.
  induction fuel as [|fuel IH]; intros s ws Hs Hfuel Hfail Hsuf Hmax; [lia|].
  destruct (node_dict Hok _ _ Hs) as [d Hd]. simpl.
  destruct (decide (s = 0)) as [->|Hs0].
  { exists 0, ws, d. eauto 10. }
  rewrite Hd. simpl. destruct (dict_mem d c) eqn:Hmem.
  { apply dict_mem_true in Hmem. exists s, ws, d. eauto 10. }
  apply dict_mem_false in Hmem.
  destruct (Hfail s ws Hs Hs0 (Nat.le_refl _))
    as (w' & f & u & Hw' & Hf & Hu & Hsu & Hlen & Hin & Hlps).
  simplify_eq. rewrite Hf. simpl.
  destruct (IH f u) as (r & wr & dr & ? & ? & ? & ? & ? & ? & ?);
    [done | lia | | by etrans | |].
  - intros n w Hn Hn0 Hle. apply (Hfail n w); [done..|lia].
  - intros v Hv Hvc. apply Hlps; [by apply Hmax| |by eapply words_prefix_closed].
    assert (v `suffix_of` ws) as Hvw by by apply Hmax.
    pose proof (suffix_length _ _ Hvw).
    destruct (decide (length v = length ws)) as [Heq|]; [|lia].
    apply suffix_length_eq in Hvw; [|lia]. subst v.
    by destruct (no_edge_no_word Hok _ _ _ c Hs Hd Hmem).
  - exists r, wr, dr. split; [done|]. split; [done|]. split; [done|].
    split; [lia|]. done.
Qed.

(** One transition of the automaton: the failure walk followed by
    [get(c, 0)] moves from the longest suffix of [t] in the trie to the
    longest suffix of [t ++ [c]] in the trie. *)
Lemma transition_ok fuel c t s ws :
  words !! s = Some ws → length ws < fuel →
  (∀ n w, words !! n = Some w → n ≠ 0 → length w ≤ length ws →
     fail_ok words ac n) →
  longest_suffix words t ws →
  ∃ r wr, (follow_fail fuel ac s c ≫= λ n, goto ac n c) = Some r ∧
    words !! r = Some wr ∧ longest_suffix words (t ++ [c]) wr ∧
    length wr ≤ S (length ws).
Proof.
  intros Hs Hfuel Hfail (Hsuf & Hin & Hmax).
  destruct (follow_fail_ok fuel c t s ws)
    as (r & wr & d & -> & Hr & Hwr & Hlen & Hmax' & Hd & Hedge); [done..| |].
  { intros v Hv Hvc. apply Hmax; [done|]. by eapply words_prefix_closed. }
  simpl. unfold goto. rewrite Hd. simpl.
  destruct (dict_get d c) as [m|] eqn:Hg; simpl.
  - destruct (decide (m = 0)) as [->|Hm].
    + exists 0, []. split; [done|]. split; [eauto using tk_root|].
      split; [|simpl; lia]. split; [apply suffix_nil|].
      split; [eauto using words_nil|].
      intros v [->|(v' & -> & Hv')]%suffix_snoc_cases Hvin; [apply suffix_nil|].
      assert (r = 0) as -> by eauto using tk_loop.
      assert (wr = []) as -> by (pose proof (tk_root _ _ Hok); congruence).
      apply Hmax', suffix_nil_inv in Hv' as ->; [|done].
      destruct (edge_of_word Hok _ _ _ _ Hr Hd Hvin) as (m & ? & ? & _).
      congruence.
    + exists m, (wr ++ [c]). split; [done|].
      split; [eauto using word_of_edge|]. split; [|rewrite length_app; simpl; lia].
      split; [by apply suffix_app|].
      split; [eapply list_elem_of_lookup_2; eauto using word_of_edge|].
      intros v [->|(v' & -> & Hv')]%suffix_snoc_cases Hvin; [apply suffix_nil|].
      apply suffix_app. by apply Hmax'.
  - destruct Hedge as [->|[? ?]]; [|done].
    assert (wr = []) as -> by (pose proof (tk_root _ _ Hok); congruence).
    exists 0, []. split; [done|]. split; [done|]. split; [|simpl; lia].
    split; [apply suffix_nil|]. split; [eauto using words_nil|].
    intros v [->|(v' & -> & Hv')]%suffix_snoc_cases Hvin; [apply suffix_nil|].
    apply Hmax', suffix_nil_inv in Hv' as ->; [|done].
    by destruct (no_edge_no_word Hok _ _ _ c Hr Hd Hg).
Qed.
End Transition.

(** ** The breadth-first failure-link builder *)

Section Links.
Context (pats : list (list symbol)) (words : list (list symbol)).
Context (tr : list dict) (out0 : list (list nat)) (fuel : nat).
Hypothesis Hok : trie_ok tr words.
Hypothesis Hout0 : length out0 = length words.
Hypothesis Hdepth : ∀ w, w ∈ words → length w < fuel.


Lemma links_inv_ext ac (F G : nat → Prop) :
  (∀ n, F n ↔ G n) →
  links_inv pats words tr out0 ac F → links_inv pats words tr out0 ac G.
Proof.
  intros HFG [].
  split; try done.
  - by apply HFG.
  - intros n Hn%HFG Hn0.
    destruct (li_final0 n Hn Hn0)
      as (w & f & u & o & inh & ? & ? & ? & ? & ?%HFG & ?).
    by exists w, f, u, o, inh.
  - intros n Hn. apply li_fresh0. by rewrite HFG.
Qed.

Lemma node_final_fail_ok ac F n : node_final words out0 ac F n → fail_ok words ac n.
Proof.
  intros (w & f & u & o & inh & ? & ? & ? & ? & _). by exists w, f, u.
Qed.

(** Lines 56-66 for one child: the child becomes final. *)
Lemma link_child_ok ac (F : nat → Prop) q current wc d c child :
  links_inv pats words tr out0 ac F → F current → current ≠ 0 →
  words !! current = Some wc → tr !! current = Some d →
  dict_get d c = Some child → ¬ F child →
  (∀ n w, words !! n = Some w → length w ≤ length wc → F n) →
  ∃ ac', link_child fuel current (c, child) (ac, q) = Some (ac', q ++ [child]) ∧
    links_inv pats words tr out0 ac' (λ n, F n ∨ n = child).
Proof.
  intros Hinv Hcur Hcur0 Hwc Hd Hg Hchild Hbelow.
  assert (child ≠ 0) as Hchild0.
  { intros ->. apply Hcur0. eauto using tk_loop. }
  pose proof (word_of_edge Hok _ _ _ _ _ Hwc Hd Hg Hchild0) as Hwchild.
  destruct (li_final _ _ _ _ _ _ Hinv _ Hcur Hcur0)
    as (w' & f & u & _ & _ & Hw' & Hf & Hu & (Hsu & Hlen & Hin & Hlps) & _).
  simplify_eq.
  assert (Hok' : trie_ok (trie ac) words) by by rewrite (li_trie _ _ _ _ _ _ Hinv).
  destruct (transition_ok ac words Hok' fuel c u f u)
    as (r & wr & Hrun & Hr & (Hwr & Hwrin & Hmax) & Hwrlen);
    [done|by apply Hdepth| |split; [done|]|].
  { intros n w Hn Hn0 Hle. eapply node_final_fail_ok, li_final; eauto.
    apply (Hbelow n w); [done|lia]. }
  { split; [done|]. by intros. }
  apply bind_Some in Hrun as (r0 & Hr0 & Hgoto).
  assert (F r) as HFr by (apply (Hbelow r wr); [done|lia]).
  assert (r ≠ child) by (by intros ->).
  destruct (lookup_lt_is_Some_2 out0 child) as [o Ho].
  { rewrite Hout0. eauto using lookup_lt_Some. }
  destruct (lookup_lt_is_Some_2 (output ac) r) as [inh Hinh].
  { rewrite (li_out_len _ _ _ _ _ _ Hinv). eauto using lookup_lt_Some. }
  assert (child < length (fail ac)) as Hlt.
  { rewrite (li_fail_len _ _ _ _ _ _ Hinv). eauto using lookup_lt_Some. }
  assert (child < length (output ac)) as Hlt'.
  { rewrite (li_out_len _ _ _ _ _ _ Hinv). eauto using lookup_lt_Some. }
  unfold link_child. rewrite Hf. simpl. rewrite Hr0. simpl. rewrite Hgoto. simpl.
  unfold set_item. rewrite decide_True by done. simpl.
  rewrite (li_fresh _ _ _ _ _ _ Hinv _ Hchild), Ho. simpl. rewrite Hinh. simpl.
  eexists. split; [done|]. split; simpl.
  - eapply li_pats; eauto.
  - eapply li_trie; eauto.
  - rewrite length_insert. eapply li_fail_len; eauto.
  - rewrite length_insert. eapply li_out_len; eauto.
  - left. eapply li_root_in; eauto.
  - rewrite list_lookup_insert_ne by done. eapply li_root_fail; eauto.
  - rewrite list_lookup_insert_ne by done. eapply li_root_out; eauto.
  - intros n [Hn| ->] Hn0.
    + assert (n ≠ child) by (by intros ->).
      destruct (li_final _ _ _ _ _ _ Hinv _ Hn Hn0)
        as (w1 & f1 & u1 & o1 & inh1 & ? & ? & ? & ? & ? & ? & ? & Hinh1).
      assert (f1 ≠ child) by (by intros ->).
      exists w1, f1, u1, o1, inh1. simpl.
      rewrite !list_lookup_insert_ne by done. eauto 10.
    + exists (wc ++ [c]), r, wr, o, inh. simpl.
      rewrite !list_lookup_insert_eq by done.
      split; [done|]. split; [done|]. split; [done|]. split.
      { split; [etrans; [done|]; by apply suffix_app|].
        split; [rewrite length_app; simpl; lia|]. split; [done|].
        intros v [->|(v' & -> & Hv')]%suffix_snoc_cases Hvlen Hvin;
          [apply suffix_nil|].
        apply Hmax; [|done]. apply suffix_app.
        rewrite !length_app in Hvlen. simpl in Hvlen.
        apply Hlps; [done|lia|by eapply words_prefix_closed]. }
      split; [by left|]. split; [done|]. split; [done|].
      rewrite decide_False.
      * by rewrite list_lookup_insert_ne.
      * rewrite length_app. simpl. destruct wc; [|simpl; lia].
        destruct Hcur0. eauto using word_nil_root.
  - intros n Hn. rewrite list_lookup_insert_ne by (intros ->; auto).
    apply (li_fresh _ _ _ _ _ _ Hinv). auto.
Qed.


Lemma word_parent n w c :
  words !! n = Some (w ++ [c]) → ∃ p, words !! p = Some w ∧ parent_of words p n.
Proof.
  intros Hn. destruct (tk_parent _ _ Hok _ _ _ Hn) as (p & _ & Hp & _).
  exists p. split; [done|]. by exists w, c.
Qed.

Lemma sched_head current rest processed :
  sched words (current :: rest) processed →
  ∃ wc A B, words !! current = Some wc ∧ 1 ≤ length wc ∧ rest = A ++ B ∧
    (∀ n w, n ∈ A → words !! n = Some w → length w = length wc) ∧
    (∀ n w, n ∈ B → words !! n = Some w → length w = S (length wc)) ∧
    (∀ n w, words !! n = Some w → length w ≤ length wc →
       n = 0 ∨ n ∈ processed ++ current :: rest).
Proof.
  intros [Hnd Hrange Hseen (dd & A & B & Hq & Hdd & HA & HB & Hbelow)].
  destruct (Hrange current) as [Hc0 [wc Hwc]].
  { apply elem_of_app. right. left. }
  exists wc. destruct A as [|a A]; simpl in Hq; simplify_eq.
  - exists rest, []. split; [done|].
    assert (length wc = S dd) as Hlen by (eapply HB; [left|done]).
    split; [lia|]. split; [by rewrite app_nil_r|].
    split; [|split; [by intros ?? ?%elem_of_nil|]].
    + intros n w Hn Hw. rewrite Hlen. eapply HB; [by right|done].
    + intros n w Hw Hle. destruct (decide (length w ≤ dd)); [eauto|].
      right. destruct w as [|x w _] using rev_ind; [simpl in *; lia|].
      rewrite length_app in *. simpl in *.
      destruct (word_parent _ _ _ Hw) as (p & Hp & Hpar).
      apply (Hseen n (w ++ [x])); [done|eauto using child_nonzero|].
      destruct (Hbelow p w Hp) as [->|[?|Hin]%elem_of_app]; [lia| | |].
      * left. pose proof (tk_root _ _ Hok). by simplify_eq.
      * right. by exists p.
      * pose proof (HB _ _ Hin Hp). lia.
  - exists A, B. split; [done|].
    assert (length wc = dd) as Hlen by (eapply HA; [left|done]). subst dd.
    split; [done|]. split; [done|]. split; [|split; [done|done]].
    intros n w Hn Hw. eapply HA; [by right|done].
Qed.

Lemma nodes_bound (l : list nat) :
  NoDup l → (∀ n, n ∈ l → n ≠ 0 ∧ is_Some (words !! n)) →
  S (length l) ≤ length words.
Proof.
  intros Hnd Hl.
  assert (l ⊆+ seq 1 (length words - 1)) as Hsub%submseteq_length.
  { apply NoDup_submseteq; [done|]. intros n [Hn0 Hn%lookup_lt_is_Some]%Hl.
    apply elem_of_seq. lia. }
  rewrite length_seq in Hsub.
  pose proof (lookup_lt_Some _ _ _ (tk_root _ _ Hok)). lia.
Qed.

(** The entries of a non-root node are its children in the tree. *)
Lemma children_facts current wc d :
  words !! current = Some wc → tr !! current = Some d →
  (∀ c, dict_get d c ≠ Some 0) →
  (∀ c m, (c, m) ∈ d →
     dict_get d c = Some m ∧ m ≠ 0 ∧ words !! m = Some (wc ++ [c])) ∧
  NoDup d.*2 ∧
  (∀ n, parent_of words current n → n ∈ d.*2).
Proof.
  intros Hwc Hd Hc0.
  assert (Hents : ∀ c m, (c, m) ∈ d →
     dict_get d c = Some m ∧ m ≠ 0 ∧ words !! m = Some (wc ++ [c])).
  { intros c m Hin.
    assert (dict_get d c = Some m) as Hg
      by eauto using elem_of_dict_get, tk_keys.
    assert (m ≠ 0) by (intros ->; by eapply Hc0).
    eauto using word_of_edge. }
  split; [done|]. split.
  - apply NoDup_fmap_2_strong; [|eapply NoDup_fmap_1, tk_keys; eauto].
    intros [c1 m1] [c2 m2] (? & ? & H1)%Hents (? & ? & H2)%Hents ?.
    simpl in *. subst m2. rewrite H1 in H2.
    injection H2 as [_ ->]%app_inj_tail. done.
  - intros n (wp & c & Hp & Hn). simplify_eq.
    destruct (edge_of_word Hok current d wc c) as (m & Hg & _ & Hm);
      [done..|by eapply list_elem_of_lookup_2|].
    assert (m = n) as -> by eauto using word_inj.
    apply list_elem_of_fmap. exists (c, n). eauto using dict_get_elem_of.
Qed.

(** *** One round of the loop: a node leaves the queue, its children
    become final and join the queue. *)
Lemma bfs_round ac current rest processed d :
  links_inv pats words tr out0 ac
    (λ n, n = 0 ∨ n ∈ processed ++ current :: rest) →
  sched words (current :: rest) processed →
  tr !! current = Some d →
  ∃ ac', for_each (link_child fuel current) d (ac, rest)
           = Some (ac', rest ++ d.*2) ∧
    links_inv pats words tr out0 ac'
      (λ n, n = 0 ∨ n ∈ (processed ++ [current]) ++ rest ++ d.*2) ∧
    sched words (rest ++ d.*2) (processed ++ [current]).
Proof.
  intros Hinv Hsched Hd.
  destruct (sched_head _ _ _ Hsched)
    as (wc & A & B & Hwc & Hlen & -> & HA & HB & Hbelow).
  destruct Hsched as [Hnd Hrange Hseen _].
  assert (current ∈ processed ++ current :: A ++ B) as Hcin by set_solver.
  destruct (Hrange _ Hcin) as [Hc0 _].
  destruct (children_facts _ _ _ Hwc Hd) as (Hents & Hndc & Hchildren).
  { intros c Hg. eauto using tk_loop. }
  assert (Hnotproc : current ∉ processed).
  { apply NoDup_app in Hnd as (_ & Hnd & _). intros ?%Hnd. set_solver. }
  assert (Hnew : ∀ c m, (c, m) ∈ d → m ∉ processed ++ current :: A ++ B).
  { intros c m (_ & Hm0 & Hm)%Hents Hin.
    apply (Hseen _ _ Hm Hm0) in Hin as [Hl|(p & Hp & wp & c' & Hwp & Hm')].
    - rewrite length_app in Hl. simpl in Hl. lia.
    - simplify_eq.
      match goal with
      | H : _ ++ [_] = _ ++ [_] |- _ => apply app_inj_tail in H as [-> ->]
      end.
      assert (p = current) as -> by eauto using word_inj. done. }
  destruct (for_each_inv
    (λ done '(ac', q'), q' = (A ++ B) ++ done.*2 ∧
       links_inv pats words tr out0 ac'
         (λ n, (n = 0 ∨ n ∈ processed ++ current :: A ++ B)
                            ∨ n ∈ done.*2))
    (link_child fuel current) d (ac, A ++ B))
    as ([ac' q'] & Hrun & -> & Hinv').
  { split; [by rewrite app_nil_r|]. eapply links_inv_ext; [|done]. set_solver. }
  { intros done [c child] rest_d [ac1 q1] -> [-> Hinv1].
    destruct (Hents c child) as (Hg & Hchild0 & Hchild); [set_solver|].
    destruct (link_child_ok ac1 _ ((A ++ B) ++ done.*2) current wc
                (done ++ (c, child) :: rest_d) c child Hinv1)
      as (ac2 & -> & Hinv2); [set_solver|done|done|done|done| | |].
    - intros [[?|Hin]|Hin]; [done| |].
      + apply (Hnew c child) in Hin; [done|set_solver].
      + rewrite fmap_app in Hndc. apply NoDup_app in Hndc as (_ & Hndc & _).
        apply Hndc in Hin. apply Hin. simpl. left.
    - intros n w Hn Hle. left. eauto.
    - eexists (_, _). split; [done|]. split.
      + rewrite fmap_app. simpl. by rewrite <- !app_assoc.
      + eapply links_inv_ext; [|done]. intros n. rewrite fmap_app. simpl.
        set_solver. }
  exists ac'. split; [done|]. split.
  { eapply links_inv_ext; [|done]. set_solver. }
  assert (E : (processed ++ [current]) ++ (A ++ B) ++ d.*2
              = (processed ++ current :: A ++ B) ++ d.*2)
    by (rewrite <- !app_assoc; simpl; by rewrite <- ?app_assoc).
  split; rewrite ?E.
  - apply NoDup_app. split; [done|]. split; [|done].
    intros n Hn [[c m] [-> Hin]]%list_elem_of_fmap. simpl in *.
    by apply (Hnew c m).
  - intros n [Hn|[[c m] [-> Hin]]%list_elem_of_fmap]%elem_of_app.
    + by apply Hrange.
    + destruct (Hents _ _ Hin) as (_ & ? & ?). eauto.
  - intros n w Hw Hn0. split.
    + intros [Hn|[[c m] [-> Hin]]%list_elem_of_fmap]%elem_of_app.
      * destruct (Hseen n w Hw Hn0) as [[?|(p & ? & ?)] _]; [done|by left|].
        right. exists p. split; [|done]. apply elem_of_app. by left.
      * right. exists current. split; [set_solver|].
        destruct (Hents _ _ Hin) as (_ & _ & ?). by exists wc, c.
    + intros [Hl|(p & [Hp| ->%list_elem_of_singleton]%elem_of_app & Hpar)].
      * apply elem_of_app. left. apply (Hseen n w Hw Hn0). by left.
      * apply elem_of_app. left. apply (Hseen n w Hw Hn0). right. by exists p.
      * apply Hchildren in Hpar. apply elem_of_app. by right.
  - exists (length wc), A, (B ++ d.*2). split; [by rewrite app_assoc|].
    split; [done|]. split; [done|]. split.
    + intros n w [Hn|[[c m] [-> Hin]]%list_elem_of_fmap]%elem_of_app Hw; [eauto|].
      destruct (Hents _ _ Hin) as (_ & _ & ?). simpl in Hw. simplify_eq.
      rewrite length_app. simpl. lia.
    + intros n w Hw Hle. rewrite ?E.
      destruct (Hbelow n w Hw Hle); [by left|]. right. apply elem_of_app. by left.
Qed.

(** When the queue is empty every node has been processed. *)
Lemma all_final ac processed :
  links_inv pats words tr out0 ac (λ n, n = 0 ∨ n ∈ processed ++ []) →
  sched words [] processed →
  links_inv pats words tr out0 ac (λ n, is_Some (words !! n)).
Proof.
  intros Hinv [_ Hrange Hseen _]. eapply links_inv_ext; [|done].
  intros n. split.
  - intros [->|[_ ?]%Hrange]; [|done]. eauto using tk_root.
  - intros [w Hw]. revert n Hw.
    induction w as [|c w IH] using rev_ind; intros n Hw.
    + left. eauto using word_nil_root.
    + right. apply (Hseen n (w ++ [c])); [done|eauto using child_nonzero|].
      destruct (word_parent _ _ _ Hw) as (p & Hp & Hpar).
      destruct (IH p Hp) as [->|Hin].
      * left. pose proof (tk_root _ _ Hok). by simplify_eq.
      * right. exists p. split; [|done]. by rewrite app_nil_r in Hin.
Qed.

(** The loop ends within as many rounds as there are nodes besides the
    root, and leaves every node final. *)
Lemma bfs_ok steps : ∀ ac queue processed,
  links_inv pats words tr out0 ac (λ n, n = 0 ∨ n ∈ processed ++ queue) →
  sched words queue processed →
  length words ≤ S (steps + length processed) →
  ∃ ac', bfs steps fuel ac queue = Some ac' ∧
    links_inv pats words tr out0 ac' (λ n, is_Some (words !! n)).
Proof.
  induction steps as [|steps IH]; intros ac queue processed Hinv Hsched Hsteps;
    (destruct queue as [|current rest];
      [exists ac; split; [done|]; by eapply all_final|]).
  - pose proof (nodes_bound _ (sc_nodup _ _ _ Hsched) (sc_range _ _ _ Hsched)) as Hb.
    rewrite length_app in Hb. simpl in *. lia.
  - destruct (sc_range _ _ _ Hsched current) as [_ [wc Hwc]].
    { apply elem_of_app. right. left. }
    destruct (node_dict Hok _ _ Hwc) as [d Hd].
    destruct (bfs_round _ _ _ _ _ Hinv Hsched Hd) as (ac' & Hrun & Hinv' & Hsched').
    simpl. rewrite (li_trie _ _ _ _ _ _ Hinv), Hd. simpl. rewrite Hrun. simpl.
    apply (IH _ _ (processed ++ [current])); [done..|].
    rewrite length_app. simpl. lia.
Qed.
End Links.

(** ** The three phases of [build_fail_links] *)

(** Lines 42-44 leave the tables as they are (every failure link is still 0)
    and put the children of the root in the queue. *)
Lemma seed_children_ok ac d : ∀ q,
  (∀ n, n < length (fail ac) → fail ac !! n = Some 0) →
  (∀ c m, (c, m) ∈ d → m < length (fail ac)) →
  for_each seed_child d (ac, q) = Some (ac, q ++ d.*2).
Proof.
  intros q Hz. revert q. induction d as [|[c m] d IH]; intros q Hd; simpl.
  - by rewrite app_nil_r.
  - assert (m < length (fail ac)) as Hm by (eapply Hd; left).
    unfold set_item. rewrite decide_True by done. simpl.
    rewrite list_insert_id by auto.
    replace (with_fail ac (fail ac)) with ac by by destruct ac.
    rewrite IH; [by rewrite <- app_assoc|]. intros ???. eapply Hd. by right.
Qed.

(** Lines 47-50: the root gets an entry to itself for every symbol of
    [cs] that has no entry yet; nothing else changes. *)
Lemma root_defaults_ok ac d0 cs :
  trie ac !! 0 = Some d0 → NoDup d0.*1 →
  ∃ d, for_each root_default cs ac = Some (with_trie ac (<[0 := d]> (trie ac))) ∧
    NoDup d.*1 ∧
    ∀ c m, dict_get d c = Some m ↔
      dict_get d0 c = Some m ∨ (m = 0 ∧ dict_get d0 c = None ∧ c ∈ cs).
Proof.
  intros Hd0 Hnd. pose proof (lookup_lt_Some _ _ _ Hd0) as Hlt.
  destruct (for_each_inv
    (λ done ac', ∃ d, ac' = with_trie ac (<[0 := d]> (trie ac)) ∧ NoDup d.*1 ∧
       ∀ c m, dict_get d c = Some m ↔
         dict_get d0 c = Some m ∨ (m = 0 ∧ dict_get d0 c = None ∧ c ∈ done))
    root_default cs ac) as (ac' & Hrun & d & -> & ? & ?); [| |by eauto].
  - exists d0. split; [|split; [done|]].
    + rewrite list_insert_id by done. by destruct ac.
    + intros c m. split; [by left|]. by intros [?|(_ & _ & ?%elem_of_nil)].
  - intros done c rest ? _ (d & -> & Hndd & Hd).
    unfold root_default. simpl. rewrite list_lookup_insert_eq by done. simpl.
    destruct (dict_mem d c) eqn:Hmem.
    + eexists. split; [done|]. exists d. split; [done|]. split; [done|].
      intros c' m. rewrite Hd. split; [set_solver|].
      intros [?|(-> & Hn & [?| ->%list_elem_of_singleton]%elem_of_app)];
        [by left|by right|].
      apply dict_mem_true in Hmem as [m Hm]. pose proof Hm as Hm'.
      apply Hd in Hm as [?|(-> & _)]; [congruence|]. by apply Hd in Hm'.
    + apply dict_mem_false in Hmem. eexists. split; [done|].
      exists (d ++ [(c, 0)]). rewrite (dict_set_fresh _ _ _ Hmem).
      unfold with_trie. simpl. rewrite list_insert_insert_eq. split; [done|].
      split.
      * rewrite fmap_app. apply NoDup_app. split; [done|].
        split; [|apply NoDup_singleton].
        intros x Hx ->%list_elem_of_singleton. by apply dict_get_None in Hmem.
      * intros c' m. rewrite dict_get_app.
        destruct (dict_get d c') as [m'|] eqn:Hg.
        -- rewrite <- Hg, Hd. set_solver.
        -- simpl. case_decide as Hc.
           ++ subst c'. split.
              ** intros [= <-]. right. split; [done|]. split; [|set_solver].
                 destruct (dict_get d0 c) eqn:Hg0; [|done].
                 assert (dict_get d c = Some n) by (apply Hd; by left). congruence.
              ** intros [Hg0|(-> & _)]; [|done].
                 assert (dict_get d c = Some m) by (apply Hd; by left). congruence.
           ++ split; [done|].
              intros [Hg0|(-> & ? & [?|?%list_elem_of_singleton]%elem_of_app)].
              ** assert (dict_get d c' = Some m) by (apply Hd; by left). congruence.
              ** assert (dict_get d c' = Some 0) by (apply Hd; right; done).
                 congruence.
              ** congruence.
Qed.

Lemma root_defaults_trie_ok tr words d0 d (cs : list symbol) :
  trie_ok tr words → tr !! 0 = Some d0 → NoDup d.*1 →
  (∀ c m, dict_get d c = Some m ↔
     dict_get d0 c = Some m ∨ (m = 0 ∧ dict_get d0 c = None ∧ c ∈ cs)) →
  trie_ok (<[0 := d]> tr) words.
Proof.
  intros Hok Hd0 Hnd Hd. pose proof (lookup_lt_Some _ _ _ Hd0) as Hlt. split.
  - rewrite length_insert. eauto using tk_len.
  - eauto using tk_root.
  - eauto using tk_inj.
  - intros n d' [(<- & <- & _)|[? ?]]%list_lookup_insert_Some; eauto using tk_keys.
  - intros n d' c m [(<- & <- & _)|[? ?]]%list_lookup_insert_Some Hg Hm;
      [|eauto using tk_edge].
    apply Hd in Hg as [Hg|(-> & _)]; [|done]. eauto using tk_edge.
  - intros n d' c [(<- & <- & _)|[? ?]]%list_lookup_insert_Some Hg;
      eauto using tk_loop.
  - intros m w c Hm.
    destruct (tk_parent _ _ Hok _ _ _ Hm) as (n & d' & Hn & Hd' & Hg).
    exists n. destruct (decide (n = 0)) as [->|].
    + exists d. simplify_eq. split; [done|].
      split; [by apply list_lookup_insert_eq|]. apply Hd. by left.
    + exists d'. by rewrite list_lookup_insert_ne.
Qed.

Lemma length_le_total_len (pats : list (list symbol)) p :
  p ∈ pats → length p ≤ total_len pats.
Proof.
  unfold total_len. induction 1; simpl; lia.
Qed.

(** ** The finished automaton *)


Lemma build_fail_links_ok pats ac0 words fuel :
  built_trie pats (length pats) ac0 words →
  length words ≤ S (total_len pats) → total_len pats < fuel →
  ∃ ac, build_fail_links fuel ac0 = Some ac ∧ automaton_ok pats ac0 ac words.
Proof.
  intros Hbt Hsize Hfuel. pose proof (bt_ok _ _ _ _ Hbt) as Hok0.
  pose proof (tk_root _ _ Hok0) as Hroot.
  destruct (node_dict Hok0 _ _ Hroot) as [d0 Hd0].
  assert (Hflen : length (fail ac0) = length words).
  { by rewrite (bt_fail _ _ _ _ Hbt), length_replicate. }
  assert (Hfz : ∀ n, n < length (fail ac0) → fail ac0 !! n = Some 0).
  { intros n Hn. rewrite (bt_fail _ _ _ _ Hbt). apply lookup_replicate_2. lia. }
  destruct (children_facts words (trie ac0) Hok0 0 [] d0 Hroot Hd0)
    as (Hents & Hndc & Hchildren).
  { intros c. by eapply bt_strict. }
  unfold build_fail_links. rewrite Hd0. cbn [mbind option_bind].
  rewrite seed_children_ok; [|done|]; first last.
  { intros c m (_ & _ & Hm)%Hents. rewrite Hflen. eauto using lookup_lt_Some. }
  cbn [mbind option_bind app].
  destruct (root_defaults_ok ac0 d0 printable Hd0) as (d & -> & Hnd & Hd);
    [eauto using tk_keys|]. cbn [mbind option_bind].
  set (ac1 := with_trie ac0 (<[0 := d]> (trie ac0))).
  assert (Hok : trie_ok (trie ac1) words) by by eapply root_defaults_trie_ok.
  assert (Hdepth : ∀ w, w ∈ words → length w < fuel).
  { intros w [->|(p & Hp%length_le_total_len & Hw%prefix_length)]
             %(bt_prefix _ _ _ _ Hbt);
      simpl; lia. }
  destruct (bfs_ok pats words (trie ac1) (output ac0) fuel Hok
              (bt_out_len _ _ _ _ Hbt) Hdepth fuel ac1 d0.*2 [])
    as (ac & Hrun & Hinv).
  - split; simpl; try done.
    + eapply bt_pats; eauto.
    + eapply bt_out_len; eauto.
    + by left.
    + apply Hfz. rewrite Hflen. eauto using lookup_lt_Some.
    + intros n [?|[[c m] [-> Hin]]%list_elem_of_fmap] Hn0; [done|]. simpl.
      destruct (Hents _ _ Hin) as (_ & _ & Hm). simpl in Hm.
      destruct (lookup_lt_is_Some_2 (output ac0) m) as [o Ho].
      { rewrite (bt_out_len _ _ _ _ Hbt). eauto using lookup_lt_Some. }
      exists [c], 0, [], o, []. simpl. rewrite app_nil_r.
      split; [done|]. split; [apply Hfz; rewrite Hflen; eauto using lookup_lt_Some|].
      split; [done|]. split; [|split; [by left|done]].
      split; [apply suffix_nil|]. split; [simpl; lia|].
      split; [eauto using words_nil|].
      intros [|??] _ ? _; [done|simpl in *; lia].
  - split.
    + done.
    + intros n [[c m] [-> Hin]]%list_elem_of_fmap. simpl.
      destruct (Hents _ _ Hin) as (_ & ? & ?). eauto.
    + intros n w Hw Hn0. simpl. split.
      * intros [[c m] [-> Hin]]%list_elem_of_fmap. simpl in *.
        destruct (Hents _ _ Hin) as (_ & _ & ?). simplify_eq. by left.
      * intros [Hl|(p & ?%elem_of_nil & _)]; [|done].
        apply Hchildren. destruct w as [|c [|??]]; simplify_eq/=.
        by exists [], c.
    + exists 1, d0.*2, []. split; [by rewrite app_nil_r|]. split; [done|].
      split; [|split; [by intros ?? ?%elem_of_nil|]].
      * intros n w [[c m] [-> Hin]]%list_elem_of_fmap Hw. simpl in *.
        destruct (Hents _ _ Hin) as (_ & _ & ?). by simplify_eq.
      * intros n w Hw Hle. simpl. destruct w as [|c [|??]]; simpl in *; [| |lia].
        -- left. eauto using word_nil_root.
        -- right. apply Hchildren. by exists [], c.
  - simpl. lia.
  - exists ac. split; [done|]. split; [done| | |].
    + by rewrite (li_trie _ _ _ _ _ _ Hinv).
    + exists d0, d. rewrite (li_trie _ _ _ _ _ _ Hinv). done.
    + by rewrite (li_trie _ _ _ _ _ _ Hinv).
Qed.

Lemma init_ok fuel pats :
  total_len pats < fuel →
  ∃ ac0 ac words, build_trie (mkAhoCorasick pats [[]] [0] []) = Some ac0 ∧
    build_fail_links fuel ac0 = Some ac ∧ init fuel pats = Some ac ∧
    automaton_ok pats ac0 ac words.
Proof.
  intros Hfuel.
  destruct (build_trie_ok pats []) as (ac0 & words & Hrun & Hbt & Hsize).
  destruct (build_fail_links_ok pats ac0 words fuel Hbt Hsize Hfuel)
    as (ac & Hrun' & Hao).
  exists ac0, ac, words. unfold init. rewrite Hrun. by cbn [mbind option_bind].
Qed.


Section Automaton.
Context (pats : list (list symbol)) (ac0 ac : AhoCorasick).
Context (words : list (list symbol)) (fuel : nat).
Hypothesis Hao : automaton_ok pats ac0 ac words.
Hypothesis Hfuel : total_len pats < fuel.

Lemma ao_built : built_trie pats (length pats) ac0 words.
Proof. exact (ao_trie0 _ _ _ _ Hao). Qed.

Lemma ao_trie_ok : trie_ok (trie ac) words.
Proof. exact (ao_trie _ _ _ _ Hao). Qed.

Lemma ao_links_inv :
  links_inv pats words (trie ac) (output ac0) ac (λ n, is_Some (words !! n)).
Proof. exact (ao_links _ _ _ _ Hao). Qed.

Lemma ao_patterns : patterns ac = pats.
Proof. eapply li_pats, ao_links_inv. Qed.

Lemma ao_depth w : w ∈ words → length w < fuel.
Proof.
  intros [->|(p & Hp%length_le_total_len & Hw%prefix_length)]
         %(bt_prefix _ _ _ _ ao_built);
    simpl; lia.
Qed.

Lemma ao_node_final n w :
  words !! n = Some w → n ≠ 0 →
  node_final words (output ac0) ac (λ n, is_Some (words !! n)) n.
Proof. intros Hn Hn0. eapply li_final; eauto using ao_links_inv. Qed.

Lemma ao_fail_ok n w : words !! n = Some w → n ≠ 0 → fail_ok words ac n.
Proof. intros. eapply node_final_fail_ok, ao_node_final; eauto. Qed.

Lemma ao_output n w : words !! n = Some w → ∃ o, output ac !! n = Some o.
Proof.
  intros Hn%lookup_lt_Some. apply lookup_lt_is_Some.
  by rewrite (li_out_len _ _ _ _ _ _ ao_links_inv).
Qed.

Lemma ao_direct n o w i :
  output ac0 !! n = Some o → words !! n = Some w →
  (i ∈ o ↔ pats !! i = Some w).
Proof.
  intros Ho Hw. rewrite (bt_direct _ _ _ _ ao_built _ _ _ i Ho Hw).
  split; [by intros [_ ?]|]. intros Hi. split; [|done].
  eauto using lookup_lt_Some.
Qed.

Lemma ao_present i p : pats !! i = Some p → p ∈ words.
Proof.
  intros Hi. eapply bt_present; eauto using lookup_lt_Some, ao_built.
Qed.

(** Every index in an output list is a pattern that ends where the node's
    word ends. *)
Lemma out_sound w n o i :
  words !! n = Some w → output ac !! n = Some o → i ∈ o →
  ∃ p, pats !! i = Some p ∧ p `suffix_of` w.
Proof.
  assert (∃ k, length w < k) as [k Hk] by (exists (S (length w)); lia).
  revert w n o i Hk. induction k as [|k IH]; intros w n o i Hk Hn Ho Hi; [lia|].
  destruct (decide (n = 0)) as [->|Hn0].
  - rewrite (li_root_out _ _ _ _ _ _ ao_links_inv) in Ho.
    apply (ao_direct _ _ _ i Ho Hn) in Hi. by exists w.
  - destruct (ao_node_final n w Hn Hn0)
      as (w' & f & u & o0 & inh & Hw' & Hf & Hu & (Hsu & Hlen & _) & _ &
          Ho0 & Ho' & Hinh).
    assert (w' = w) as -> by congruence.
    assert (o = o0 ++ inh) as -> by congruence.
    apply elem_of_app in Hi as [Hi|Hi].
    + apply (ao_direct _ _ _ i Ho0 Hn) in Hi. by exists w.
    + case_decide; [subst; by apply elem_of_nil in Hi|].
      destruct (IH u f inh i) as (p & ? & ?); [lia|done..|].
      exists p. split; [done|]. by etrans.
Qed.

(** Every non-empty pattern that ends where the node's word ends is in
    the node's output list. *)
Lemma out_complete w n o i p :
  words !! n = Some w → output ac !! n = Some o →
  pats !! i = Some p → p ≠ [] → p `suffix_of` w → i ∈ o.
Proof.
  assert (∃ k, length w < k) as [k Hk] by (exists (S (length w)); lia).
  revert w n o Hk. induction k as [|k IH]; intros w n o Hk Hn Ho Hi Hp Hsuf; [lia|].
  destruct (decide (n = 0)) as [->|Hn0].
  - pose proof (tk_root _ _ ao_trie_ok). simplify_eq. by apply suffix_nil_inv in Hsuf.
  - destruct (ao_node_final n w Hn Hn0)
      as (w' & f & u & o0 & inh & Hw' & Hf & Hu & (Hsu & Hlen & _ & Hlps) & _ &
          Ho0 & Ho' & Hinh).
    assert (w' = w) as -> by congruence.
    assert (o = o0 ++ inh) as -> by congruence.
    apply elem_of_app.
    destruct (decide (p = w)) as [->|Hne].
    + left. by apply (ao_direct _ _ _ i Ho0 Hn).
    + right. pose proof (suffix_length _ _ Hsuf) as Hle.
      assert (length p < length w) as Hlt.
      { destruct (decide (length p = length w)); [|lia].
        destruct Hne. apply suffix_length_eq; [done|lia]. }
      assert (p `suffix_of` u) by (apply Hlps; eauto using ao_present).
      case_decide; [destruct p; simpl in *; [done|lia]|].
      apply (IH u f inh); [lia|done..].
Qed.

(** *** The search loop *)

Lemma emit_all position outs : ∀ ms,
  (∀ i, i ∈ outs → is_Some (pats !! i)) →
  ∃ new, for_each (emit ac position) outs ms = Some (ms ++ new) ∧
    Forall2 (match_of pats position) outs new.
Proof.
  induction outs as [|i outs IH]; intros ms Hall; simpl.
  - exists []. by rewrite app_nil_r.
  - destruct (Hall i) as [p Hp]; [left|].
    assert (emit ac position i ms
              = Some (ms ++ [((Z.of_nat position - Z.of_nat (length p) + 1)%Z, i)]))
      as -> by (unfold emit; by rewrite ao_patterns, Hp).
    cbn [mbind option_bind].
    destruct (IH (ms ++ [((Z.of_nat position - Z.of_nat (length p) + 1)%Z, i)]))
      as (new & -> & Hnew).
    { intros ??. apply Hall. by right. }
    eexists (_ :: new). rewrite <- app_assoc. split; [done|].
    constructor; [|done]. by exists p.
Qed.

(** One symbol: the state moves to the longest suffix of the text read so
    far that is in the trie, and one match is appended for every entry of
    the new state's output list, in order. *)
Lemma search_step_ok t c position node ws ms :
  words !! node = Some ws → longest_suffix words t ws →
  ∃ node' ws' outs new,
    search_step fuel ac (position, c) (node, ms) = Some (node', ms ++ new) ∧
    words !! node' = Some ws' ∧ longest_suffix words (t ++ [c]) ws' ∧
    output ac !! node' = Some outs ∧ Forall2 (match_of pats position) outs new.
Proof.
  intros Hnode Hls.
  destruct (transition_ok ac words ao_trie_ok fuel c t node ws)
    as (r & wr & Hrun & Hr & Hls' & _); [done| | |done|].
  { apply ao_depth. by eapply list_elem_of_lookup_2. }
  { intros n w Hn Hn0 _. by eapply ao_fail_ok. }
  apply bind_Some in Hrun as (r0 & Hr0 & Hgoto).
  destruct (ao_output r wr Hr) as [outs Houts].
  destruct (emit_all position outs ms) as (new & Hemit & Hnew).
  { intros i Hi. destruct (out_sound _ _ _ _ Hr Houts Hi) as (p & ? & _). eauto. }
  exists r, wr, outs, new. unfold search_step.
  rewrite Hr0. simpl. rewrite Hgoto. simpl. rewrite Houts. simpl.
  rewrite Hemit. done.
Qed.

Lemma search_loop_ok t2 : ∀ t1 node ws ms,
  words !! node = Some ws → longest_suffix words t1 ws →
  ∃ node' ws' groups,
    for_each (search_step fuel ac) (enumerate_from (length t1) t2) (node, ms)
      = Some (node', ms ++ mjoin groups) ∧
    words !! node' = Some ws' ∧ longest_suffix words (t1 ++ t2) ws' ∧
    length groups = length t2 ∧
    ∀ k g, groups !! k = Some g →
      ∃ nd w outs, words !! nd = Some w ∧
        longest_suffix words (t1 ++ take (S k) t2) w ∧
        output ac !! nd = Some outs ∧
        Forall2 (match_of pats (length t1 + k)) outs g.
Proof.
  induction t2 as [|c t2 IH]; intros t1 node ws ms Hnode Hls.
  - exists node, ws, []. simpl. by rewrite !app_nil_r.
  - destruct (search_step_ok t1 c (length t1) node ws ms Hnode Hls)
      as (node1 & ws1 & outs & new & Hstep & Hnode1 & Hls1 & Houts & Hnew).
    destruct (IH (t1 ++ [c]) node1 ws1 (ms ++ new) Hnode1 Hls1)
      as (node' & ws' & groups & Hrun & Hnode' & Hls' & Hlen & Hgroups).
    exists node', ws', (new :: groups).
    cbn [enumerate_from for_each]. rewrite Hstep. cbn [mbind option_bind].
    rewrite length_app, Nat.add_1_r in Hrun. rewrite Hrun.
    split; [by rewrite <- app_assoc|]. split; [done|].
    split; [by rewrite <- app_assoc in Hls'|]. split; [simpl; lia|].
    intros [|k] g Hg; simpl in Hg.
    + simplify_eq. exists node1, ws1, outs. rewrite Nat.add_0_r.
      cbn [take]. by rewrite take_0.
    + destruct (Hgroups k g Hg) as (nd & w & outs' & ? & Hw & ? & Hg').
      exists nd, w, outs'. rewrite <- app_assoc in Hw.
      rewrite length_app, Nat.add_1_r in Hg'.
      by rewrite Nat.add_succ_r.
Qed.


Lemma search_ok text :
  ∃ groups, search fuel ac text = Some (mjoin groups) ∧
    search_groups pats ac words text groups.
Proof.
  destruct (search_loop_ok text [] 0 [] [])
    as (node' & ws' & groups & Hrun & _ & _ & Hlen & Hgroups).
  - eauto using tk_root, ao_trie_ok.
  - split; [done|]. split; [eauto using words_nil, ao_trie_ok|].
    by intros v ->%suffix_nil_inv.
  - exists groups. unfold search, enumerate. simpl in Hrun. rewrite Hrun.
    split; [done|]. split; [done|]. done.
Qed.

(** The state of the loop is the node of the longest suffix of the text
    read so far that is in the trie. *)
Lemma state_after_ok text :
  ∃ node w, state_after fuel ac text = Some node ∧ words !! node = Some w ∧
    longest_suffix words text w.
Proof.
  destruct (search_loop_ok text [] 0 [] [])
    as (node' & ws' & groups & Hrun & Hnode & Hls & _).
  - eauto using tk_root, ao_trie_ok.
  - split; [done|]. split; [eauto using words_nil, ao_trie_ok|].
    by intros v ->%suffix_nil_inv.
  - exists node', ws'. unfold state_after, enumerate. simpl in Hrun.
    by rewrite Hrun.
Qed.

Lemma longest_suffix_unique t u v :
  longest_suffix words t u → longest_suffix words t v → u = v.
Proof.
  intros (Hu & Huin & Humax) (Hv & Hvin & Hvmax).
  apply (anti_symm suffix); auto.
Qed.

Lemma group_state text groups k g :
  search_groups pats ac words text groups → groups !! k = Some g →
  ∃ node outs, state_after fuel ac (take (S k) text) = Some node ∧
    output ac !! node = Some outs ∧ Forall2 (match_of pats k) outs g.
Proof.
  intros [_ Hgroups] Hg.
  destruct (Hgroups k g Hg) as (nd & w & outs & Hnd & Hw & Houts & Hall).
  destruct (state_after_ok (take (S k) text)) as (node & w' & Hrun & Hnode & Hw').
  assert (w' = w) as -> by eauto using longest_suffix_unique.
  assert (node = nd) as -> by eauto using word_inj, ao_trie_ok.
  eauto.
Qed.

(** A match of group [k] is an occurrence that ends at position [k]. *)
Lemma group_sound text groups k g start i :
  search_groups pats ac words text groups → groups !! k = Some g →
  (start, i) ∈ g →
  ∃ p pre, pats !! i = Some p ∧ take (S k) text = pre ++ p ∧
    S k = length pre + length p ∧ start = Z.of_nat (length pre).
Proof.
  intros [Hlen Hgroups] Hg Hin.
  destruct (Hgroups k g Hg) as (nd & w & outs & Hnd & (Hw & _) & Houts & Hall).
  apply list_elem_of_lookup in Hin as [j Hj].
  destruct (Forall2_lookup_r _ _ _ _ _ Hall Hj) as (i' & Hi' & p & Hp & [= Hs Hi]).
  subst i' start.
  destruct (out_sound w nd outs i) as (p' & Hp' & Hsuf);
    [done|done|by eapply list_elem_of_lookup_2|].
  simplify_eq. assert (p `suffix_of` take (S k) text) as [pre Hpre] by by etrans.
  exists p, pre. split; [done|]. split; [done|].
  assert (S k = length pre + length p) as Hk.
  { rewrite <- length_app, <- Hpre, length_take_le; [done|].
    apply lookup_lt_Some in Hg. lia. }
  split; [done|]. lia.
Qed.

(** Every occurrence of a non-empty pattern is in the group of the position
    where it ends. *)
Lemma group_complete text groups pre p post i :
  search_groups pats ac words text groups → text = pre ++ p ++ post →
  pats !! i = Some p → p ≠ [] →
  ∃ k g, groups !! k = Some g ∧ (Z.of_nat (length pre), i) ∈ g.
Proof.
  intros [Hlen Hgroups] -> Hi Hp.
  assert (0 < length p) as Hlp by (destruct p; simpl; [done|lia]).
  set (k := length pre + length p - 1).
  destruct (lookup_lt_is_Some_2 groups k) as [g Hg].
  { rewrite Hlen, !length_app. lia. }
  exists k, g. split; [done|].
  destruct (Hgroups k g Hg) as (nd & w & outs & Hnd & (_ & _ & Hmax) & Houts & Hall).
  assert (take (S k) (pre ++ p ++ post) = pre ++ p) as Htake.
  { rewrite app_assoc. apply take_app_length'. rewrite length_app. lia. }
  rewrite Htake in Hmax.
  assert (i ∈ outs) as [j Hj]%list_elem_of_lookup.
  { eapply (out_complete w nd outs i p); [done..|].
    apply Hmax; [by exists pre|eauto using ao_present]. }
  destruct (Forall2_lookup_l _ _ _ _ _ Hall Hj) as (m & Hm & p' & Hp' & ->).
  simplify_eq. apply list_elem_of_lookup. exists j.
  rewrite Hm. do 2 f_equal. lia.
Qed.
End Automaton.

(** ** Fuel

    A loop that ends within [fuel] rounds ends the same way with more. *)

Lemma follow_fail_mono fuel fuel' ac c r : ∀ node,
  fuel ≤ fuel' → follow_fail fuel ac node c = Some r →
  follow_fail fuel' ac node c = Some r.
Proof.
  revert fuel'. induction fuel as [|fuel IH]; intros fuel' node Hle; [done|].
  destruct fuel' as [|fuel']; [lia|]. simpl.
  case_decide; [done|]. destruct (trie ac !! node) as [d|]; [simpl|done].
  destruct (dict_mem d c); [done|].
  destruct (fail ac !! node) as [f|]; [simpl|done]. apply IH. lia.
Qed.

Lemma for_each_mono {A S} (body body' : A → S → option S) l : ∀ s r,
  (∀ x s r, body x s = Some r → body' x s = Some r) →
  for_each body l s = Some r → for_each body' l s = Some r.
Proof.
  induction l as [|x l IH]; intros s r Hbody; simpl; [done|].
  intros (s' & Hs' & Hrun)%bind_Some. rewrite (Hbody _ _ _ Hs'). simpl. eauto.
Qed.

Lemma link_child_mono fuel fuel' current kv st r :
  fuel ≤ fuel' → link_child fuel current kv st = Some r →
  link_child fuel' current kv st = Some r.
Proof.
  intros Hle. destruct st as [ac queue], kv as [c child]. unfold link_child.
  destruct (fail ac !! current) as [f|]; [simpl|done].
  intros (n & Hn & Hrest)%bind_Some.
  by rewrite (follow_fail_mono _ _ _ _ _ _ Hle Hn).
Qed.

Lemma bfs_mono steps : ∀ steps' fuel fuel' ac queue r,
  steps ≤ steps' → fuel ≤ fuel' → bfs steps fuel ac queue = Some r →
  bfs steps' fuel' ac queue = Some r.
Proof.
  induction steps as [|steps IH]; intros steps' fuel fuel' ac queue r Hs Hf;
    (destruct queue as [|current queue]; [by destruct steps'|]); [done|].
  destruct steps' as [|steps']; [lia|]. simpl.
  destruct (trie ac !! current) as [d|]; [simpl|done].
  intros ([ac' q'] & Hrun & Hrest)%bind_Some.
  assert (for_each (link_child fuel' current) d (ac, queue) = Some (ac', q'))
    as ->.
  { eapply for_each_mono; [|done]. intros ???. by apply link_child_mono. }
  simpl. eapply IH; [| |done]; lia.
Qed.

Lemma init_mono fuel fuel' pats ac :
  fuel ≤ fuel' → init fuel pats = Some ac → init fuel' pats = Some ac.
Proof.
  intros Hle. unfold init.
  destruct (build_trie _) as [ac0|]; [|done]. cbn [mbind option_bind].
  unfold build_fail_links. destruct (trie ac0 !! 0) as [d|]; [|done].
  cbn [mbind option_bind].
  destruct (for_each seed_child d (ac0, [])) as [[ac1 queue]|]; [|done].
  cbn [mbind option_bind].
  destruct (for_each root_default printable ac1) as [ac2|]; [|done].
  cbn [mbind option_bind]. by apply bfs_mono.
Qed.

Lemma search_mono fuel fuel' ac text ms :
  fuel ≤ fuel' → search fuel ac text = Some ms → search fuel' ac text = Some ms.
Proof.
  intros Hle. unfold search. intros ([node ms'] & Hrun & Hms)%bind_Some.
  assert (for_each (search_step fuel' ac) (enumerate text) (0, [])
            = Some (node, ms')) as ->; [|done].
  eapply for_each_mono; [|done].
  intros [position c] [node0 ms0] r. unfold search_step.
  intros (n & Hn & Hrest)%bind_Some.
  by rewrite (follow_fail_mono _ _ _ _ _ _ Hle Hn).
Qed.

Lemma run_mono fuel fuel' pats text ms :
  fuel ≤ fuel' → run fuel pats text = Some ms → run fuel' pats text = Some ms.
Proof.
  intros Hle. unfold run. intros (ac & Hac & Hms)%bind_Some.
  rewrite (init_mono _ _ _ _ Hle Hac). simpl. by eapply search_mono.
Qed.

(** ** Construction followed by one search *)

Lemma run_ok fuel pats text :
  total_len pats < fuel →
  ∃ ac0 ac words groups,
    build_trie (mkAhoCorasick pats [[]] [0] []) = Some ac0 ∧
    build_fail_links fuel ac0 = Some ac ∧ init fuel pats = Some ac ∧
    automaton_ok pats ac0 ac words ∧
    search fuel ac text = Some (mjoin groups) ∧
    search_groups pats ac words text groups.
Proof.
  intros Hfuel.
  destruct (init_ok fuel pats Hfuel) as (ac0 & ac & words & ? & ? & ? & Hao).
  destruct (search_ok pats ac0 ac words fuel Hao Hfuel text) as (groups & ? & ?).
  by exists ac0, ac, words, groups.
Qed.


Lemma slice_middle {A} (pre p post : list A) :
  slice (pre ++ p ++ post) (Z.of_nat (length pre))
        (Z.of_nat (length pre) + Z.of_nat (length p)) = p.
Proof.
  unfold slice. rewrite <- Nat2Z.inj_add, !Nat2Z.id, drop_app_length.
  replace (length pre + length p - length pre) with (length p) by lia.
  apply take_app_length.
Qed.

Lemma run_sound fuel pats text :
  total_len pats < fuel →
  ∃ ac ms, init fuel pats = Some ac ∧ search fuel ac text = Some ms ∧
    ∀ start i, (start, i) ∈ ms →
      ∃ p pre post, pats !! i = Some p ∧ text = pre ++ p ++ post ∧
        start = Z.of_nat (length pre).
Proof.
  intros Hfuel.
  destruct (run_ok fuel pats text Hfuel)
    as (ac0 & ac & words & groups & _ & _ & Hinit & Hao & Hrun & Hgroups).
  exists ac, (mjoin groups). split; [done|]. split; [done|].
  intros start i (g & Hin & [k Hg]%list_elem_of_lookup)%list_elem_of_join.
  destruct (group_sound pats ac0 ac words fuel Hao Hfuel text groups k g start i)
    as (p & pre & Hp & Htake & _ & ->); [done..|].
  exists p, pre, (drop (S k) text). split; [done|]. split; [|done].
  by rewrite app_assoc, <- Htake, take_drop.
Qed.

(** C2. Soundness of search: every pair [(start, pattern_index)] that
    [search] returns names a pattern of the list, lies inside the text
    ([0 <= start] and [start + len(pattern) <= len(text)]), and
    [text[start : start + len(pattern)]] is exactly that pattern. *)
Theorem search_sound fuel pats text :
  total_len pats < fuel →
  ∃ ac ms, init fuel pats = Some ac ∧ search fuel ac text = Some ms ∧
    ∀ start pattern_index, (start, pattern_index) ∈ ms →
      ∃ p, pats !! pattern_index = Some p ∧ (0 ≤ start)%Z ∧
        (start + Z.of_nat (length p) ≤ Z.of_nat (length text))%Z ∧
        slice text start (start + Z.of_nat (length p)) = p.
Proof.
  intros Hfuel. destruct (run_sound fuel pats text Hfuel) as (ac & ms & ? & ? & Hms).
  exists ac, ms. split; [done|]. split; [done|].
  intros start i (p & pre & post & Hp & -> & ->)%Hms.
  exists p. split; [done|]. split; [lia|]. split.
  - rewrite !length_app. lia.
  - apply slice_middle.
Qed.

Lemma search_sound_witness :
  ∃ ac ms, init 13 he_she_his_hers = Some ac ∧
    search 13 ac (str "ushers") = Some ms ∧
    ∀ start pattern_index, (start, pattern_index) ∈ ms →
      ∃ p, he_she_his_hers !! pattern_index = Some p ∧
        (0 ≤ start)%Z ∧
        (start + Z.of_nat (length p) ≤ Z.of_nat (length (str "ushers")))%Z ∧
        slice (str "ushers") start (start + Z.of_nat (length p)) = p.
Proof.
  apply (search_sound 13 he_she_his_hers (str "ushers")).
  vm_compute. lia.
Defined.

Lemma run_complete fuel pats text :
  total_len pats < fuel →
  ∃ ac ms, init fuel pats = Some ac ∧ search fuel ac text = Some ms ∧
    ∀ i p pre post, pats !! i = Some p → p ≠ [] → text = pre ++ p ++ post →
      (Z.of_nat (length pre), i) ∈ ms.
Proof.
  intros Hfuel.
  destruct (run_ok fuel pats text Hfuel)
    as (ac0 & ac & words & groups & _ & _ & Hinit & Hao & Hrun & Hgroups).
  exists ac, (mjoin groups). split; [done|]. split; [done|].
  intros i p pre post Hi Hp Htext.
  destruct (group_complete pats ac0 ac words fuel Hao Hfuel text groups pre p post i)
    as (k & g & Hg & Hin); [done..|].
  apply list_elem_of_join. exists g. split; [done|]. by eapply list_elem_of_lookup_2.
Qed.

(** C1 (as amended). Completeness of search for non-empty patterns: whenever
    a non-empty pattern [p] of the list, at index [i], occurs in the text at
    offset [length pre] (the text is [pre ++ p ++ post]; occurrences may
    overlap or nest), the list returned by [search] contains
    [(length pre, i)]. *)
Theorem search_complete_nonempty fuel pats text :
  total_len pats < fuel →
  ∃ ac ms, init fuel pats = Some ac ∧ search fuel ac text = Some ms ∧
    ∀ pattern_index p pre post,
      pats !! pattern_index = Some p → p ≠ [] → text = pre ++ p ++ post →
      (Z.of_nat (length pre), pattern_index) ∈ ms.
Proof. apply run_complete. Qed.

Lemma search_complete_nonempty_witness :
  ∃ ac ms, init 6 [str "aa"; str "aaa"] = Some ac ∧
    search 6 ac (str "aaaaa") = Some ms ∧
    ∀ pattern_index p pre post,
      [str "aa"; str "aaa"] !! pattern_index = Some p → p ≠ [] →
      str "aaaaa" = pre ++ p ++ post →
      (Z.of_nat (length pre), pattern_index) ∈ ms.
Proof.
  apply (search_complete_nonempty 6 [str "aa"; str "aaa"] (str "aaaaa")).
  vm_compute. lia.
Defined.

(** C1 as stated fails for the empty pattern: it occurs in ["a"] at offset 0,
    and the only match returned is at offset 1. *)
Lemma search_misses_empty_pattern :
  ∃ ac ms, init 1 [str ""] = Some ac ∧ search 1 ac (str "a") = Some ms ∧
    [str ""] !! 0 = Some (str "") ∧
    str "a" = [] ++ str "" ++ str "a" ∧
    (Z.of_nat (length (@nil symbol)), 0) ∉ ms.
Proof.
  eexists _, _. split; [vm_compute; reflexivity|].
  split; [vm_compute; reflexivity|]. split; [done|]. split; [done|].
  intros Hin. apply list_elem_of_singleton in Hin. discriminate Hin.
Qed.

(** ** The scenario of the module's own main block *)


Lemma ushers_matches_aux :
  ∃ ac, init 13 he_she_his_hers = Some ac ∧
    search 13 ac (str "ushers") = Some [(1%Z, 1); (2%Z, 0); (2%Z, 3)].
Proof.
  destruct (init 13 he_she_his_hers) as [ac|] eqn:Hinit; [|by vm_compute in Hinit].
  exists ac. split; [done|].
  assert (run 13 he_she_his_hers (str "ushers")
            = Some [(1%Z, 1); (2%Z, 0); (2%Z, 3)]) as Hrun by by vm_compute.
  unfold run in Hrun. by rewrite Hinit in Hrun.
Qed.

(** C3 (as amended). With patterns ["he"; "she"; "his"; "hers"] and text
    ["ushers"] the search returns exactly three matches, in this order:
    ["she"] (index 1) at offset 1, ["he"] (index 0) at offset 2 and ["hers"]
    (index 3) at offset 2; there is no match for ["his"] (index 2). *)
Theorem ushers_matches fuel :
  total_len he_she_his_hers < fuel →
  ∃ ac, init fuel he_she_his_hers = Some ac ∧
    search fuel ac (str "ushers") = Some [(1%Z, 1); (2%Z, 0); (2%Z, 3)].
Proof.
  intros Hfuel. assert (13 ≤ fuel) as Hle by (vm_compute in Hfuel; lia).
  destruct ushers_matches_aux as (ac & Hinit & Hrun).
  exists ac. split; [by eapply init_mono | by eapply search_mono].
Qed.

Lemma ushers_matches_witness :
  ∃ ac, init 13 he_she_his_hers = Some ac ∧
    search 13 ac (str "ushers") = Some [(1%Z, 1); (2%Z, 0); (2%Z, 3)].
Proof. apply (ushers_matches 13). vm_compute. lia. Defined.

(** C3 as stated gives the offsets 1, 0 and 3: none of these three pairs is
    returned. *)
Lemma ushers_claimed_offsets_absent :
  ∃ ac ms, init 13 he_she_his_hers = Some ac ∧
    search 13 ac (str "ushers") = Some ms ∧
    ((1%Z, 0) ∉ ms) ∧ ((0%Z, 1) ∉ ms) ∧ ((3%Z, 3) ∉ ms).
Proof.
  destruct (ushers_matches_aux) as (ac & Hinit & Hrun).
  exists ac, [(1%Z, 1); (2%Z, 0); (2%Z, 3)]. split; [done|]. split; [done|].
  rewrite !elem_of_cons, !elem_of_nil.
  repeat split; intros H; decompose [or] H; congruence.
Qed.

(** ** Order of the matches *)

Lemma join_lookup_le {A} (ls : list (list A)) : ∀ a b x y,
  a ≤ b → mjoin ls !! a = Some x → mjoin ls !! b = Some y →
  ∃ ka kb ga gb, ka ≤ kb ∧ ls !! ka = Some ga ∧ ls !! kb = Some gb ∧
    x ∈ ga ∧ y ∈ gb.
Proof.
  induction ls as [|l ls IH]; intros a b x y Hle; [done|].
  change (mjoin (l :: ls)) with (l ++ mjoin ls).
  intros [Ha|[Hla Ha]]%lookup_app_Some [Hb|[Hlb Hb]]%lookup_app_Some.
  - exists 0, 0, l, l. eauto 10 using list_elem_of_lookup_2.
  - assert (y ∈ mjoin ls) as (g & Hy & [k Hk]%list_elem_of_lookup)%list_elem_of_join
      by by eapply list_elem_of_lookup_2.
    exists 0, (S k), l, g. split; [lia|]. eauto 10 using list_elem_of_lookup_2.
  - apply lookup_lt_Some in Hb. lia.
  - destruct (IH (a - length l) (b - length l) x y) as (ka & kb & ga & gb & ? & ?);
      [lia|done..|].
    exists (S ka), (S kb), ga, gb. split; [lia|done].
Qed.

Lemma groups_order pats ac0 ac words fuel text groups :
  automaton_ok pats ac0 ac words → total_len pats < fuel →
  search_groups pats ac words text groups →
  ∀ a b s1 i1 s2 i2, a ≤ b →
    mjoin groups !! a = Some (s1, i1) → mjoin groups !! b = Some (s2, i2) →
    ∃ p1 p2, pats !! i1 = Some p1 ∧ pats !! i2 = Some p2 ∧
      (s1 + Z.of_nat (length p1) ≤ s2 + Z.of_nat (length p2))%Z.
Proof.
  intros Hao Hfuel Hgroups a b s1 i1 s2 i2 Hle Ha Hb.
  destruct (join_lookup_le groups a b _ _ Hle Ha Hb)
    as (ka & kb & ga & gb & Hk & Hga & Hgb & Hina & Hinb).
  destruct (group_sound pats ac0 ac words fuel Hao Hfuel text groups ka ga s1 i1)
    as (p1 & pre1 & Hp1 & _ & Hlen1 & ->); [done..|].
  destruct (group_sound pats ac0 ac words fuel Hao Hfuel text groups kb gb s2 i2)
    as (p2 & pre2 & Hp2 & _ & Hlen2 & ->); [done..|].
  exists p1, p2. split; [done|]. split; [done|]. lia.
Qed.

Lemma run_order fuel pats text :
  total_len pats < fuel →
  ∃ ac ms, init fuel pats = Some ac ∧ search fuel ac text = Some ms ∧
    ∀ a b s1 i1 s2 i2, a ≤ b →
      ms !! a = Some (s1, i1) → ms !! b = Some (s2, i2) →
      ∃ p1 p2, pats !! i1 = Some p1 ∧ pats !! i2 = Some p2 ∧
        (s1 + Z.of_nat (length p1) ≤ s2 + Z.of_nat (length p2))%Z.
Proof.
  intros Hfuel.
  destruct (run_ok fuel pats text Hfuel)
    as (ac0 & ac & words & groups & _ & _ & Hinit & Hao & Hrun & Hgroups).
  exists ac, (mjoin groups). split; [done|]. split; [done|].
  by eapply groups_order.
Qed.

(** C4 (as amended). Order of emission: of any two matches returned by
    [search], the one emitted earlier ends no later than the one emitted
    later, that is, [start + len(pattern)] is non-decreasing along the list;
    start offsets are non-decreasing between matches whose patterns have the
    same length. *)
Theorem search_order_by_end fuel pats text :
  total_len pats < fuel →
  ∃ ac ms, init fuel pats = Some ac ∧ search fuel ac text = Some ms ∧
    ∀ a b start1 i1 start2 i2, a < b →
      ms !! a = Some (start1, i1) → ms !! b = Some (start2, i2) →
      ∃ p1 p2, pats !! i1 = Some p1 ∧ pats !! i2 = Some p2 ∧
        (start1 + Z.of_nat (length p1) ≤ start2 + Z.of_nat (length p2))%Z ∧
        (length p1 = length p2 → (start1 ≤ start2)%Z).
Proof.
  intros Hfuel. destruct (run_order fuel pats text Hfuel) as (ac & ms & ? & ? & Hms).
  exists ac, ms. split; [done|]. split; [done|].
  intros a b s1 i1 s2 i2 Hlt Ha Hb.
  destruct (Hms a b s1 i1 s2 i2) as (p1 & p2 & ? & ? & ?); [lia|done..|].
  exists p1, p2. split; [done|]. split; [done|]. split; [done|]. lia.
Qed.

Lemma search_order_by_end_witness :
  ∃ ac ms, init 5 [str "b"; str "abc"] = Some ac ∧
    search 5 ac (str "abc") = Some ms ∧
    ∀ a b start1 i1 start2 i2, a < b →
      ms !! a = Some (start1, i1) → ms !! b = Some (start2, i2) →
      ∃ p1 p2, [str "b"; str "abc"] !! i1 = Some p1 ∧
        [str "b"; str "abc"] !! i2 = Some p2 ∧
        (start1 + Z.of_nat (length p1) ≤ start2 + Z.of_nat (length p2))%Z ∧
        (length p1 = length p2 → (start1 ≤ start2)%Z).
Proof.
  apply (search_order_by_end 5 [str "b"; str "abc"] (str "abc")).
  vm_compute. lia.
Defined.

(** C4 as stated fails: with patterns ["b"; "abc"] and text ["abc"] the match
    of ["b"] at offset 1 is emitted before the match of ["abc"] at offset 0. *)
Lemma search_start_not_monotone :
  ∃ ac ms start1 i1 start2 i2,
    init 5 [str "b"; str "abc"] = Some ac ∧
    search 5 ac (str "abc") = Some ms ∧
    ms !! 0 = Some (start1, i1) ∧ ms !! 1 = Some (start2, i2) ∧
    ¬ (start1 ≤ start2)%Z.
Proof.
  destruct (init 5 [str "b"; str "abc"]) as [ac|] eqn:Hinit;
    [|by vm_compute in Hinit].
  assert (run 5 [str "b"; str "abc"] (str "abc") = Some [(1%Z, 0); (0%Z, 1)])
    as Hrun by by vm_compute.
  unfold run in Hrun. rewrite Hinit in Hrun. simpl in Hrun.
  exists ac, [(1%Z, 0); (0%Z, 1)], 1%Z, 0, 0%Z, 1.
  split; [done|]. split; [done|]. split; [done|]. split; [done|]. lia.
Qed.


(** Shape of a finished output list: the indices that [build_trie] put at
    the node, then the finished list of the node's failure target. *)
Lemma output_structure pats ac0 ac words fuel n outs :
  automaton_ok pats ac0 ac words → total_len pats < fuel →
  output ac !! n = Some outs →
  ∃ direct inherited, outs = direct ++ inherited ∧
    output ac0 !! n = Some direct ∧
    (root_or_child ac0 n → inherited = []) ∧
    (¬ root_or_child ac0 n →
       ∃ f, fail ac !! n = Some f ∧ output ac !! f = Some inherited) ∧
    (∀ i j p q, i ∈ direct → j ∈ inherited →
       pats !! i = Some p → pats !! j = Some q → length q < length p).
Proof.
  intros Hao Hfuel Houts.
  pose proof (ao_trie0 _ _ _ _ Hao) as Hbt. pose proof (bt_ok _ _ _ _ Hbt) as Hok0.
  pose proof (ao_links _ _ _ _ Hao) as Hli.
  destruct (lookup_lt_is_Some_2 words n) as [w Hw].
  { rewrite <- (li_out_len _ _ _ _ _ _ Hli). eauto using lookup_lt_Some. }
  destruct (decide (n = 0)) as [->|Hn0].
  { exists outs, []. rewrite app_nil_r. split; [done|].
    split; [by rewrite <- (li_root_out _ _ _ _ _ _ Hli)|].
    split; [done|]. split; [intros []; by left|]. by intros ???? _ ?%elem_of_nil. }
  destruct (ao_node_final _ _ _ _ Hao n w Hw Hn0)
    as (w' & f & u & o & inh & Hw' & Hf & Hu & (_ & Hlen & _) & _ &
        Ho & Houts' & Hinh).
  assert (w' = w) as -> by congruence.
  assert (outs = o ++ inh) as -> by congruence.
  destruct (node_dict Hok0 _ _ (tk_root _ _ Hok0)) as [d0 Hd0].
  exists o, inh. split; [done|]. split; [done|].
  case_decide as Hdepth.
  - subst inh. split; [done|]. split; [|by intros ???? _ ?%elem_of_nil].
    intros []. right. exists d0.
    destruct w as [|c [|??]]; simpl in *; [|exists c|lia].
    + destruct Hn0. eauto using word_nil_root.
    + split; [done|].
      destruct (edge_of_word Hok0 0 d0 [] c) as (m & ? & _ & ?);
        [eauto using tk_root|done|by eapply list_elem_of_lookup_2|].
      by assert (m = n) as -> by eauto using word_inj.
  - split; [|split; [eauto|]].
    + intros [?|(d & c & Hd & Hg)]; [done|]. destruct Hdepth.
      assert (d = d0) as -> by congruence.
      pose proof (word_of_edge Hok0 0 d0 [] c n (tk_root _ _ Hok0) Hd0 Hg Hn0).
      assert (w = [] ++ [c]) as -> by congruence. done.
    + intros i j p q Hi Hj Hp Hq.
      apply (ao_direct _ _ _ _ Hao n o w i Ho Hw) in Hi.
      destruct (out_sound pats ac0 ac words fuel Hao Hfuel u f inh j)
        as (q' & ? & ?%suffix_length); [done..|].
      assert (q' = q) as -> by congruence. assert (p = w) as -> by congruence. lia.
Qed.

(** C10. End-offset ordering: the matches come in one group per text
    position, in scan order; the group of position [k] follows, entry by
    entry, the output list of the state reached after [text[:k+1]]; the end
    offset
    [start + len(pattern) - 1] never decreases along the result; and every
    output list holds first the patterns that end at the node itself (the
    indices recorded by [build_trie]) and after them the list inherited
    from the failure target, whose patterns are strictly shorter. *)
Theorem search_grouped_by_end fuel pats text :
  total_len pats < fuel →
  ∃ ac0 ac groups,
    build_trie (mkAhoCorasick pats [[]] [0] []) = Some ac0 ∧
    build_fail_links fuel ac0 = Some ac ∧
    search fuel ac text = Some (mjoin groups) ∧
    length groups = length text ∧
    (∀ k g, groups !! k = Some g →
       ∃ node outs, state_after fuel ac (take (S k) text) = Some node ∧
         output ac !! node = Some outs ∧ Forall2 (match_of pats k) outs g) ∧
    (∀ a b start1 i1 start2 i2, a ≤ b →
       mjoin groups !! a = Some (start1, i1) →
       mjoin groups !! b = Some (start2, i2) →
       ∃ p1 p2, pats !! i1 = Some p1 ∧ pats !! i2 = Some p2 ∧
         (start1 + Z.of_nat (length p1) - 1
          ≤ start2 + Z.of_nat (length p2) - 1)%Z) ∧
    (∀ node outs, output ac !! node = Some outs →
       ∃ direct inherited, outs = direct ++ inherited ∧
         output ac0 !! node = Some direct ∧
         (root_or_child ac0 node → inherited = []) ∧
         (¬ root_or_child ac0 node →
            ∃ f, fail ac !! node = Some f ∧ output ac !! f = Some inherited) ∧
         (∀ i j p q, i ∈ direct → j ∈ inherited →
            pats !! i = Some p → pats !! j = Some q → length q < length p)).
Proof.
  intros Hfuel.
  destruct (run_ok fuel pats text Hfuel)
    as (ac0 & ac & words & groups & Htrie & Hlinks & _ & Hao & Hrun & Hgroups).
  exists ac0, ac, groups. split; [done|]. split; [done|]. split; [done|].
  split; [by destruct Hgroups|]. split; [|split].
  - intros k g Hg. by eapply group_state.
  - intros a b s1 i1 s2 i2 Hle Ha Hb.
    destruct (groups_order pats ac0 ac words fuel text groups Hao Hfuel Hgroups
                a b s1 i1 s2 i2 Hle Ha Hb) as (p1 & p2 & ? & ? & ?).
    exists p1, p2. split; [done|]. split; [done|]. lia.
  - intros node outs Houts. by eapply output_structure.
Qed.

Lemma search_grouped_by_end_witness :
  ∃ ac0 ac groups,
    build_trie (mkAhoCorasick he_she_his_hers [[]] [0] []) = Some ac0 ∧
    build_fail_links 13 ac0 = Some ac ∧
    search 13 ac (str "ushers") = Some (mjoin groups) ∧
    length groups = length (str "ushers") ∧
    (∀ k g, groups !! k = Some g →
       ∃ node outs, state_after 13 ac (take (S k) (str "ushers")) = Some node ∧
         output ac !! node = Some outs ∧
         Forall2 (match_of he_she_his_hers k) outs g) ∧
    (∀ a b start1 i1 start2 i2, a ≤ b →
       mjoin groups !! a = Some (start1, i1) →
       mjoin groups !! b = Some (start2, i2) →
       ∃ p1 p2, he_she_his_hers !! i1 = Some p1 ∧
         he_she_his_hers !! i2 = Some p2 ∧
         (start1 + Z.of_nat (length p1) - 1
          ≤ start2 + Z.of_nat (length p2) - 1)%Z) ∧
    (∀ node outs, output ac !! node = Some outs →
       ∃ direct inherited, outs = direct ++ inherited ∧
         output ac0 !! node = Some direct ∧
         (root_or_child ac0 node → inherited = []) ∧
         (¬ root_or_child ac0 node →
            ∃ f, fail ac !! node = Some f ∧ output ac !! f = Some inherited) ∧
         (∀ i j p q, i ∈ direct → j ∈ inherited →
            he_she_his_hers !! i = Some p → he_she_his_hers !! j = Some q →
            length q < length p)).
Proof.
  apply (search_grouped_by_end 13 he_she_his_hers (str "ushers")).
  vm_compute. lia.
Defined.

(** ** Totality *)

(** C8. Search totality: construction succeeds, and on the automaton it
    returns, [search] returns a result for every text, whatever symbols the
    text contains; on the empty text the result is the empty list.  ([fuel]
    and [fuel'] only have to exceed the total length of the patterns.) *)
Theorem search_total fuel fuel' pats text :
  total_len pats < fuel → total_len pats < fuel' →
  ∃ ac, init fuel pats = Some ac ∧
    (∃ ms, search fuel' ac text = Some ms) ∧ search fuel' ac [] = Some [].
Proof.
  intros Hfuel Hfuel'.
  destruct (init_ok fuel pats Hfuel) as (_ & ac & _ & _ & _ & Hinit & _).
  destruct (run_ok fuel' pats text Hfuel')
    as (_ & ac' & _ & groups & _ & _ & Hinit' & _ & Hrun & _).
  assert (ac' = ac) as ->.
  { apply (init_mono _ (fuel `max` fuel')) in Hinit; [|lia].
    apply (init_mono _ (fuel `max` fuel')) in Hinit'; [|lia]. congruence. }
  exists ac. split; [done|]. split; [eauto|done].
Qed.

Lemma search_total_witness :
  ∃ ac, init 13 he_she_his_hers = Some ac ∧
    (∃ ms, search 20 ac (str "ushers and others") = Some ms) ∧
    search 20 ac [] = Some [].
Proof.
  apply (search_total 13 20 he_she_his_hers (str "ushers and others"));
    vm_compute; lia.
Defined.

(** ** An empty pattern list *)


Lemma init_nil fuel : init fuel [] = Some root_only.
Proof. destruct fuel; vm_compute; reflexivity. Qed.

(** C5 (as amended). There is no validation at construction: an empty
    pattern list is accepted and gives a usable automaton, the root alone,
    on which [search] returns no match for every text. *)
Theorem init_no_patterns fuel text :
  0 < fuel →
  init fuel [] = Some root_only ∧ search fuel root_only text = Some [].
Proof.
  intros Hfuel. split; [apply init_nil|].
  destruct (run_sound fuel [] text Hfuel) as (ac & ms & Hinit & Hrun & Hms).
  rewrite init_nil in Hinit. injection Hinit as <-.
  destruct ms as [|[start i] ms]; [done|].
  destruct (Hms start i) as (p & _ & _ & Hp & _); [left|]. done.
Qed.

Lemma init_no_patterns_witness :
  init 1 [] = Some root_only ∧ search 1 root_only (str "ushers") = Some [].
Proof. apply (init_no_patterns 1 (str "ushers")). lia. Defined.

(** C5 as stated fails: construction from an empty pattern list does not
    raise. *)
Lemma init_accepts_no_patterns : init 1 [] ≠ None.
Proof. by rewrite init_nil. Qed.

(** ** The stored children mappings *)


Lemma walk_app tr n w1 w2 :
  walk tr n (w1 ++ w2) = walk tr n w1 ≫= λ m, walk tr m w2.
Proof.
  revert n. induction w1 as [|c w1 IH]; intros n; simpl; [done|].
  destruct (tr !! n) as [d|]; simpl; [|done].
  destruct (dict_get d c) as [m|]; simpl; [apply IH|done].
Qed.

Lemma walk_word tr words w : ∀ n,
  trie_ok tr words → words !! n = Some w → walk tr 0 w = Some n.
Proof.
  induction w as [|c w IH] using rev_ind; intros n Hok Hn.
  - simpl. f_equal. symmetry. eauto using word_nil_root.
  - destruct (tk_parent _ _ Hok _ _ _ Hn) as (p & d & Hp & Hd & Hg).
    rewrite walk_app, (IH p Hok Hp). simpl. rewrite Hd. simpl. by rewrite Hg.
Qed.

(** C7 (as amended). Stored children after construction: the entries made
    by [build_trie] are edges of the trie of the patterns and never point to
    the root; [build_fail_links] leaves the mapping of every node but the
    root as it is; to the root's mapping it adds an entry to node 0 for each
    symbol of [string.printable] that has no edge at the root, and nothing
    else; a symbol with no entry at the root yields the root through the
    default of the lookup. *)
Theorem stored_children fuel pats :
  total_len pats < fuel →
  ∃ ac0 ac d0 d,
    build_trie (mkAhoCorasick pats [[]] [0] []) = Some ac0 ∧
    build_fail_links fuel ac0 = Some ac ∧
    trie ac0 !! 0 = Some d0 ∧ trie ac !! 0 = Some d ∧
    (∀ n dn c m, trie ac0 !! n = Some dn → dict_get dn c = Some m →
       m ≠ 0 ∧ real_edge pats (trie ac0) n c m) ∧
    (∀ n, n ≠ 0 → trie ac !! n = trie ac0 !! n) ∧
    (∀ c m, dict_get d c = Some m ↔
       dict_get d0 c = Some m ∨
       (m = 0 ∧ dict_get d0 c = None ∧ c ∈ printable)) ∧
    (∀ c, dict_get d c = None → goto ac 0 c = Some 0).
Proof.
  intros Hfuel.
  destruct (init_ok fuel pats Hfuel) as (ac0 & ac & words & Htrie & Hlinks & _ & Hao).
  pose proof (ao_trie0 _ _ _ _ Hao) as Hbt. pose proof (bt_ok _ _ _ _ Hbt) as Hok0.
  destruct (ao_root _ _ _ _ Hao) as (d0 & d & Hd0 & Heq & Hd).
  assert (trie ac !! 0 = Some d) as Hroot.
  { rewrite Heq. apply list_lookup_insert_eq. eauto using lookup_lt_Some. }
  exists ac0, ac, d0, d. split; [done|]. split; [done|]. split; [done|].
  split; [done|]. split; [|split; [|split; [done|]]].
  - intros n dn c m Hdn Hg.
    assert (m ≠ 0) as Hm by (intros ->; by eapply bt_strict).
    split; [done|].
    destruct (tk_edge _ _ Hok0 _ _ _ _ Hdn Hg Hm) as (w & Hn & Hw).
    destruct (bt_prefix _ _ _ _ Hbt (w ++ [c])) as [Hnil|(p & Hp & Hpre)].
    { by eapply list_elem_of_lookup_2. }
    { by destruct w. }
    exists p, w. split; [done|]. split; [done|]. split; by eapply walk_word.
  - intros n Hn. rewrite Heq. by apply list_lookup_insert_ne.
  - intros c Hc. unfold goto. rewrite Hroot. simpl. by rewrite Hc.
Qed.

Lemma stored_children_witness :
  ∃ ac0 ac d0 d,
    build_trie (mkAhoCorasick he_she_his_hers [[]] [0] []) = Some ac0 ∧
    build_fail_links 13 ac0 = Some ac ∧
    trie ac0 !! 0 = Some d0 ∧ trie ac !! 0 = Some d ∧
    (∀ n dn c m, trie ac0 !! n = Some dn → dict_get dn c = Some m →
       m ≠ 0 ∧ real_edge he_she_his_hers (trie ac0) n c m) ∧
    (∀ n, n ≠ 0 → trie ac !! n = trie ac0 !! n) ∧
    (∀ c m, dict_get d c = Some m ↔
       dict_get d0 c = Some m ∨
       (m = 0 ∧ dict_get d0 c = None ∧ c ∈ printable)) ∧
    (∀ c, dict_get d c = None → goto ac 0 c = Some 0).
Proof. apply (stored_children 13 he_she_his_hers). vm_compute. lia. Defined.

(** C7 as stated fails: after construction from the single pattern ["a"]
    the root has an entry for the symbol of ["b"], which occurs in no
    pattern; the entry points to the root itself. *)
Lemma root_entry_without_edge :
  ∃ ac d c, init 2 [str "a"] = Some ac ∧ trie ac !! 0 = Some d ∧
    str "b" = [c] ∧ dict_get d c = Some 0 ∧ ∀ p, p ∈ [str "a"] → c ∉ p.
Proof.
  destruct (init 2 [str "a"]) as [ac|] eqn:Hinit; [|by vm_compute in Hinit].
  assert ((ac ← init 2 [str "a"]; d ← trie ac !! 0; dict_get d 98%N) = Some 0)
    as Hrun by by vm_compute.
  rewrite Hinit in Hrun. simpl in Hrun.
  destruct (trie ac !! 0) as [d|] eqn:Hd; [|done]. simpl in Hrun.
  exists ac, d, 98%N. split; [done|]. split; [done|]. split; [done|].
  split; [done|].
  intros p ->%list_elem_of_singleton Hin.
  apply list_elem_of_singleton in Hin. discriminate Hin.
Qed.

(** ** Empty patterns *)

(** C6. The output-superset invariant fails at a child of the root when the
    list holds an empty pattern: with patterns [""; "a"], node 1 (the word
    ["a"]) has failure target 0, the root's output list is [[0]], and node
    1's output list is [[1]], which does not contain 0. *)
Theorem root_child_misses_root_output :
  ∃ ac, init 2 [str ""; str "a"] = Some ac ∧ fail ac !! 1 = Some 0 ∧
    output ac !! 0 = Some [0] ∧ output ac !! 1 = Some [1].
Proof.
  assert ((ac ← init 2 [str ""; str "a"];
           Some (fail ac !! 1, output ac !! 0, output ac !! 1))
          = Some (Some 0, Some [0], Some [1])) as Hrun
    by (vm_compute; reflexivity).
  destruct (init 2 [str ""; str "a"]) as [ac|]; [|discriminate Hrun].
  injection Hrun as H1 H2 H3. exists ac. auto.
Qed.

(** C9. Construction accepts the empty pattern and records its index in the
    root's output list, but a search does not report it at every position:
    with patterns [""; "a"] and text ["a"] the only match is [(0, 1)], the
    pattern ["a"]; on text ["b"] the empty pattern is reported, as
    [(1, 0)]. *)
Theorem empty_pattern_not_at_every_position :
  ∃ ac, init 2 [str ""; str "a"] = Some ac ∧ output ac !! 0 = Some [0] ∧
    search 2 ac (str "a") = Some [(0%Z, 1)] ∧
    search 2 ac (str "b") = Some [(1%Z, 0)].
Proof.
  assert ((ac ← init 2 [str ""; str "a"];
           Some (output ac !! 0, search 2 ac (str "a"), search 2 ac (str "b")))
          = Some (Some [0], Some [(0%Z, 1)], Some [(1%Z, 0)]))
    as Hrun by (vm_compute; reflexivity).
  destruct (init 2 [str ""; str "a"]) as [ac|]; [|discriminate Hrun].
  injection Hrun as H1 H2 H3. exists ac. auto.
Qed.

(** * Further properties of the automaton *)

(** ** The words of the trie are the prefixes of the patterns *)

Lemma prefix_in_words tr words w p :
  trie_ok tr words → w `prefix_of` p → p ∈ words → w ∈ words.
Proof.
  intros Hok [k ->]. induction k as [|c k IH] using rev_ind.
  - by rewrite app_nil_r.
  - rewrite app_assoc. intros Hin. eauto using words_prefix_closed.
Qed.

Lemma words_pattern_prefix pats ac0 ac words w :
  automaton_ok pats ac0 ac words → (w ∈ words ↔ pattern_prefix pats w).
Proof.
  intros Hao. pose proof (ao_trie0 _ _ _ _ Hao) as Hbt.
  pose proof (bt_ok _ _ _ _ Hbt) as Hok0. split.
  - apply (bt_prefix _ _ _ _ Hbt).
  - intros [->|(p & [i Hi]%list_elem_of_lookup & Hpre)]; [eauto using words_nil|].
    eapply prefix_in_words; [done..|].
    eapply bt_present; eauto using lookup_lt_Some.
Qed.

Lemma walk_word_inv tr words :
  trie_ok tr words → (∀ n d c, tr !! n = Some d → dict_get d c ≠ Some 0) →
  ∀ w n, walk tr 0 w = Some n → words !! n = Some w.
Proof.
  intros Hok Hstrict w. induction w as [|c w IH] using rev_ind; intros n.
  - simpl. intros [= <-]. eauto using tk_root.
  - rewrite walk_app. intros (m & Hm & Hstep)%bind_Some. simpl in Hstep.
    apply bind_Some in Hstep as (d & Hd & (m' & Hg & [= ->])%bind_Some).
    eapply word_of_edge; eauto. intros ->. by eapply Hstrict.
Qed.

Lemma walk_iff_word pats ac0 ac words w n :
  automaton_ok pats ac0 ac words →
  (walk (trie ac0) 0 w = Some n ↔ words !! n = Some w).
Proof.
  intros Hao. pose proof (ao_trie0 _ _ _ _ Hao) as Hbt. split.
  - apply walk_word_inv; [eapply bt_ok | eapply bt_strict]; eauto.
  - apply walk_word. eapply bt_ok; eauto.
Qed.

Lemma init_ok_size fuel pats :
  total_len pats < fuel →
  ∃ ac0 ac words, build_trie (mkAhoCorasick pats [[]] [0] []) = Some ac0 ∧
    build_fail_links fuel ac0 = Some ac ∧ init fuel pats = Some ac ∧
    automaton_ok pats ac0 ac words ∧ length words ≤ S (total_len pats).
Proof.
  intros Hfuel.
  destruct (build_trie_ok pats []) as (ac0 & words & Hrun & Hbt & Hsize).
  destruct (build_fail_links_ok pats ac0 words fuel Hbt Hsize Hfuel)
    as (ac & Hrun' & Hao).
  exists ac0, ac, words. unfold init. rewrite Hrun. by cbn [mbind option_bind].
Qed.

(** ** The tables stay in step and in range *)

(** X1. After construction the three tables have one entry per node, there
    are at most one node per pattern symbol besides the root, and every
    stored node id (a child, a failure link) and every stored pattern index
    is in range. *)
Theorem tables_in_range fuel pats :
  total_len pats < fuel →
  ∃ ac, init fuel pats = Some ac ∧ patterns ac = pats ∧
    length (fail ac) = length (trie ac) ∧
    length (output ac) = length (trie ac) ∧
    1 ≤ length (trie ac) ≤ S (total_len pats) ∧
    (∀ n d c m, trie ac !! n = Some d → dict_get d c = Some m →
       m < length (trie ac)) ∧
    (∀ n f, fail ac !! n = Some f → f < length (trie ac)) ∧
    (∀ n o i, output ac !! n = Some o → i ∈ o → i < length pats).
Proof.
  intros Hfuel.
  destruct (init_ok_size fuel pats Hfuel)
    as (ac0 & ac & words & _ & _ & Hinit & Hao & Hsize).
  pose proof (ao_trie _ _ _ _ Hao) as Hok. pose proof (ao_links _ _ _ _ Hao) as Hli.
  pose proof (tk_len _ _ Hok) as Hlen.
  pose proof (lookup_lt_Some _ _ _ (tk_root _ _ Hok)) as Hpos.
  exists ac. split; [done|]. split; [eapply li_pats; eauto|].
  split; [rewrite Hlen; eapply li_fail_len; eauto|].
  split; [rewrite Hlen; eapply li_out_len; eauto|].
  split; [lia|]. split; [|split].
  - intros n d c m Hd Hg. destruct (decide (m = 0)) as [->|Hm]; [lia|].
    destruct (tk_edge _ _ Hok _ _ _ _ Hd Hg Hm) as (w & _ & Hw).
    rewrite Hlen. eauto using lookup_lt_Some.
  - intros n f Hf. destruct (decide (n = 0)) as [->|Hn].
    + rewrite (li_root_fail _ _ _ _ _ _ Hli) in Hf. injection Hf as <-. lia.
    + destruct (lookup_lt_is_Some_2 words n) as [w Hw].
      { rewrite <- (li_fail_len _ _ _ _ _ _ Hli). eauto using lookup_lt_Some. }
      destruct (ao_node_final _ _ _ _ Hao n w Hw Hn)
        as (_ & f' & u & _ & _ & _ & Hf' & Hu & _).
      assert (f' = f) as -> by congruence.
      rewrite Hlen. eauto using lookup_lt_Some.
  - intros n o i Ho Hi.
    destruct (lookup_lt_is_Some_2 words n) as [w Hw].
    { rewrite <- (li_out_len _ _ _ _ _ _ Hli). eauto using lookup_lt_Some. }
    destruct (out_sound pats ac0 ac words fuel Hao Hfuel w n o i)
      as (p & Hp & _); [done..|].
    eauto using lookup_lt_Some.
Qed.

Lemma tables_in_range_witness :
  ∃ ac, init 13 he_she_his_hers = Some ac ∧ patterns ac = he_she_his_hers ∧
    length (fail ac) = length (trie ac) ∧
    length (output ac) = length (trie ac) ∧
    1 ≤ length (trie ac) ≤ S (total_len he_she_his_hers) ∧
    (∀ n d c m, trie ac !! n = Some d → dict_get d c = Some m →
       m < length (trie ac)) ∧
    (∀ n f, fail ac !! n = Some f → f < length (trie ac)) ∧
    (∀ n o i, output ac !! n = Some o → i ∈ o → i < length he_she_his_hers).
Proof. apply (tables_in_range 13 he_she_his_hers). vm_compute. lia. Defined.

(** ** Failure links *)

(** X2. The root's failure link is the root.  For every other node, which
    spells a word [w], the failure link is the node that spells the longest
    proper suffix of [w] that is a prefix of some pattern (the empty string
    if there is no other). *)
Theorem fail_longest_proper_suffix fuel pats :
  total_len pats < fuel →
  ∃ ac0 ac,
    build_trie (mkAhoCorasick pats [[]] [0] []) = Some ac0 ∧
    build_fail_links fuel ac0 = Some ac ∧
    fail ac !! 0 = Some 0 ∧
    ∀ w n, w ≠ [] → walk (trie ac0) 0 w = Some n →
      ∃ f u, fail ac !! n = Some f ∧ walk (trie ac0) 0 u = Some f ∧
        u `suffix_of` w ∧ length u < length w ∧ pattern_prefix pats u ∧
        ∀ v, v `suffix_of` w → length v < length w → pattern_prefix pats v →
          v `suffix_of` u.
Proof.
  intros Hfuel.
  destruct (init_ok fuel pats Hfuel) as (ac0 & ac & words & Htrie & Hlinks & _ & Hao).
  pose proof (ao_links _ _ _ _ Hao) as Hli.
  exists ac0, ac. split; [done|]. split; [done|].
  split; [eapply li_root_fail; eauto|].
  intros w n Hw Hwalk. apply (walk_iff_word _ _ _ _ _ _ Hao) in Hwalk.
  assert (n ≠ 0) as Hn.
  { intros ->. pose proof (tk_root _ _ (ao_trie _ _ _ _ Hao)). congruence. }
  destruct (ao_node_final _ _ _ _ Hao n w Hwalk Hn)
    as (w' & f & u & _ & _ & Hw' & Hf & Hu & (Hsu & Hlen & Hin & Hmax) & _).
  assert (w' = w) as -> by congruence.
  exists f, u. split; [done|]. split; [by apply (walk_iff_word _ _ _ _ _ _ Hao)|].
  split; [done|]. split; [done|].
  split; [by apply (words_pattern_prefix _ _ _ _ _ Hao)|].
  intros v Hv Hvlen Hvp. apply Hmax; [done..|].
  by apply (words_pattern_prefix _ _ _ _ _ Hao).
Qed.

Lemma fail_longest_proper_suffix_witness :
  ∃ ac0 ac,
    build_trie (mkAhoCorasick he_she_his_hers [[]] [0] []) = Some ac0 ∧
    build_fail_links 13 ac0 = Some ac ∧
    fail ac !! 0 = Some 0 ∧
    ∀ w n, w ≠ [] → walk (trie ac0) 0 w = Some n →
      ∃ f u, fail ac !! n = Some f ∧ walk (trie ac0) 0 u = Some f ∧
        u `suffix_of` w ∧ length u < length w ∧
        pattern_prefix he_she_his_hers u ∧
        ∀ v, v `suffix_of` w → length v < length w →
          pattern_prefix he_she_his_hers v → v `suffix_of` u.
Proof.
  apply (fail_longest_proper_suffix 13 he_she_his_hers). vm_compute. lia.
Defined.

(** ** What the trie holds *)

Lemma pattern_in_output pats ac0 ac words n i p :
  automaton_ok pats ac0 ac words → words !! n = Some p → pats !! i = Some p →
  ∃ o, output ac !! n = Some o ∧ i ∈ o.
Proof.
  intros Hao Hn Hi. pose proof (ao_links _ _ _ _ Hao) as Hli.
  destruct (lookup_lt_is_Some_2 (output ac0) n) as [o0 Ho0].
  { rewrite (bt_out_len _ _ _ _ (ao_trie0 _ _ _ _ Hao)). eauto using lookup_lt_Some. }
  assert (i ∈ o0) as Hin by by apply (ao_direct _ _ _ _ Hao n o0 p i Ho0 Hn).
  destruct (decide (n = 0)) as [->|Hn0].
  - exists o0. by rewrite (li_root_out _ _ _ _ _ _ Hli).
  - destruct (ao_node_final _ _ _ _ Hao n p Hn Hn0)
      as (_ & _ & _ & o & inh & _ & _ & _ & _ & _ & Ho & Hout & _).
    assert (o = o0) as -> by congruence.
    exists (o0 ++ inh). split; [done|]. apply elem_of_app. by left.
Qed.

(** X3. The trie holds exactly the prefixes of the patterns, each at one
    node: a string labels a path from the root if and only if it is empty
    or a prefix of some pattern, two different strings never lead to the
    same node, and the path of every pattern ends at a node whose output
    list contains the pattern's index. *)
Theorem trie_holds_prefixes fuel pats :
  total_len pats < fuel →
  ∃ ac0 ac,
    build_trie (mkAhoCorasick pats [[]] [0] []) = Some ac0 ∧
    build_fail_links fuel ac0 = Some ac ∧
    (∀ w, is_Some (walk (trie ac0) 0 w) ↔ pattern_prefix pats w) ∧
    (∀ w1 w2 n, walk (trie ac0) 0 w1 = Some n →
       walk (trie ac0) 0 w2 = Some n → w1 = w2) ∧
    (∀ i p, pats !! i = Some p →
       ∃ n o, walk (trie ac0) 0 p = Some n ∧ output ac !! n = Some o ∧ i ∈ o).
Proof.
  intros Hfuel.
  destruct (init_ok fuel pats Hfuel) as (ac0 & ac & words & Htrie & Hlinks & _ & Hao).
  exists ac0, ac. split; [done|]. split; [done|]. split; [|split].
  - intros w. rewrite <- (words_pattern_prefix _ _ _ _ _ Hao). split.
    + intros [n Hn%(walk_iff_word _ _ _ _ _ _ Hao)].
      by eapply list_elem_of_lookup_2.
    + intros [n Hn]%list_elem_of_lookup. exists n.
      by apply (walk_iff_word _ _ _ _ _ _ Hao).
  - intros w1 w2 n H1%(walk_iff_word _ _ _ _ _ _ Hao)
      H2%(walk_iff_word _ _ _ _ _ _ Hao). congruence.
  - intros i p Hi.
    assert (p ∈ words) as [n Hn]%list_elem_of_lookup
      by (by eapply ao_present).
    destruct (pattern_in_output _ _ _ _ _ _ _ Hao Hn Hi) as (o & Ho & Hin).
    exists n, o. split; [by apply (walk_iff_word _ _ _ _ _ _ Hao)|done].
Qed.

Lemma trie_holds_prefixes_witness :
  ∃ ac0 ac,
    build_trie (mkAhoCorasick he_she_his_hers [[]] [0] []) = Some ac0 ∧
    build_fail_links 13 ac0 = Some ac ∧
    (∀ w, is_Some (walk (trie ac0) 0 w) ↔ pattern_prefix he_she_his_hers w) ∧
    (∀ w1 w2 n, walk (trie ac0) 0 w1 = Some n →
       walk (trie ac0) 0 w2 = Some n → w1 = w2) ∧
    (∀ i p, he_she_his_hers !! i = Some p →
       ∃ n o, walk (trie ac0) 0 p = Some n ∧ output ac !! n = Some o ∧ i ∈ o).
Proof. apply (trie_holds_prefixes 13 he_she_his_hers). vm_compute. lia. Defined.

(** ** Output lists *)

(** X4. The output list of the node that spells [w] holds only indices of
    patterns that are suffixes of [w], and it holds the index of every
    non-empty pattern that is a suffix of [w]. *)
Theorem output_is_suffix_patterns fuel pats :
  total_len pats < fuel →
  ∃ ac0 ac,
    build_trie (mkAhoCorasick pats [[]] [0] []) = Some ac0 ∧
    build_fail_links fuel ac0 = Some ac ∧
    ∀ w n outs, walk (trie ac0) 0 w = Some n → output ac !! n = Some outs →
      (∀ i, i ∈ outs → ∃ p, pats !! i = Some p ∧ p `suffix_of` w) ∧
      (∀ i p, pats !! i = Some p → p ≠ [] → p `suffix_of` w → i ∈ outs).
Proof.
  intros Hfuel.
  destruct (init_ok fuel pats Hfuel) as (ac0 & ac & words & Htrie & Hlinks & _ & Hao).
  exists ac0, ac. split; [done|]. split; [done|].
  intros w n outs Hn%(walk_iff_word _ _ _ _ _ _ Hao) Houts. split.
  - intros i Hi. by eapply (out_sound pats ac0 ac words fuel Hao Hfuel).
  - intros i p Hi Hp Hsuf.
    by eapply (out_complete pats ac0 ac words fuel Hao Hfuel w n outs i p).
Qed.

Lemma output_is_suffix_patterns_witness :
  ∃ ac0 ac,
    build_trie (mkAhoCorasick he_she_his_hers [[]] [0] []) = Some ac0 ∧
    build_fail_links 13 ac0 = Some ac ∧
    ∀ w n outs, walk (trie ac0) 0 w = Some n → output ac !! n = Some outs →
      (∀ i, i ∈ outs → ∃ p, he_she_his_hers !! i = Some p ∧ p `suffix_of` w) ∧
      (∀ i p, he_she_his_hers !! i = Some p → p ≠ [] → p `suffix_of` w →
         i ∈ outs).
Proof.
  apply (output_is_suffix_patterns 13 he_she_his_hers). vm_compute. lia.
Defined.



(** ** No index twice in an output list, no match twice in a result *)

Lemma for_each_inv_Some {A S} (I : list A → S → Prop)
    (body : A → S → option S) l s s' :
  I [] s →
  (∀ done x rest s s', l = done ++ x :: rest → I done s →
     body x s = Some s' → I (done ++ [x]) s') →
  for_each body l s = Some s' → I l s'.
Proof.
  intros H0 Hstep.
  assert (G : ∀ rest done s, l = done ++ rest → I done s →
            for_each body rest s = Some s' → I l s').
  { induction rest as [|x rest IH]; intros done s0 -> HI; simpl.
    - rewrite app_nil_r. by intros [= <-].
    - intros (s1 & Hs1 & Hrun)%bind_Some.
      apply (IH (done ++ [x]) s1); [by rewrite <- app_assoc| |done].
      by eapply Hstep. }
  by apply (G l []).
Qed.

Lemma trie_step_fresh k c ac node ac' node' :
  trie_step c (ac, node) = Some (ac', node') →
  fresh_outputs k ac → fresh_outputs k ac'.
Proof.
  unfold trie_step. intros (d & Hd & Hrun)%bind_Some Hfresh.
  apply bind_Some in Hrun as (ac1 & Hac1 & Hrun).
  apply bind_Some in Hrun as (d' & _ & (m & _ & [= <- <-])%bind_Some).
  destruct (dict_mem d c); [by injection Hac1 as <-|].
  unfold new_node in Hac1. rewrite Hd in Hac1. injection Hac1 as <-.
  intros n o [[_ Ho]|[_ <-]]%lookup_snoc_Some; [by apply (Hfresh n)|].
  split; [constructor|]. by intros ? ?%elem_of_nil.
Qed.

Lemma trie_insert_fresh k p ac ac' :
  trie_insert (k, p) ac = Some ac' →
  fresh_outputs k ac → fresh_outputs (S k) ac'.
Proof.
  unfold trie_insert. intros ([ac1 node] & Hrun & Hrest)%bind_Some Hfresh.
  apply bind_Some in Hrest as (o & Ho & [= <-]).
  assert (fresh_outputs k ac1) as Hfresh1.
  { apply (for_each_inv_Some (λ _ st, fresh_outputs k st.1) trie_step p
             (ac, 0) (ac1, node)); [done| |done].
    intros done c rest [a n] [a' n'] _ Ha Hstep. by eapply trie_step_fresh. }
  intros n o' [(<- & <- & _)|[_ Ho']]%list_lookup_insert_Some.
  - destruct (Hfresh1 node o Ho) as [Hnd Hlt]. split.
    + apply NoDup_app. split; [done|]. split; [|apply NoDup_singleton].
      intros i Hi ->%list_elem_of_singleton. specialize (Hlt _ Hi). lia.
    + intros i [Hi| ->%list_elem_of_singleton]%elem_of_app; [|lia].
      specialize (Hlt _ Hi). lia.
  - destruct (Hfresh1 n o' Ho') as [Hnd Hlt]. split; [done|].
    intros i Hi. specialize (Hlt _ Hi). lia.
Qed.

Lemma build_trie_fresh pats o0 ac0 :
  build_trie (mkAhoCorasick pats [[]] [0] o0) = Some ac0 →
  fresh_outputs (length pats) ac0.
Proof.
  unfold build_trie. simpl. intros Hrun.
  rewrite <- (length_enumerate_from 0 pats).
  apply (for_each_inv_Some (λ done ac, fresh_outputs (length done) ac)
           trie_insert (enumerate_from 0 pats) _ _) in Hrun; [done| |].
  - intros [|n] o; simpl; [|done]. intros [= <-].
    split; [constructor|]. by intros ? ?%elem_of_nil.
  - intros done [j p] rest ac ac' (Hj & _ & _)%enumerate_from_split Hfresh Hstep.
    simpl in Hj. subst j. rewrite length_app. simpl. rewrite Nat.add_1_r.
    by eapply trie_insert_fresh.
Qed.

Lemma output_NoDup pats ac0 ac words fuel :
  automaton_ok pats ac0 ac words → total_len pats < fuel →
  fresh_outputs (length pats) ac0 →
  ∀ w n o, words !! n = Some w → output ac !! n = Some o → NoDup o.
Proof.
  intros Hao Hfuel Hfresh w.
  assert (∃ k, length w < k) as [k Hk] by (exists (S (length w)); lia).
  revert w Hk. induction k as [|k IH]; intros w Hk n o Hn Ho; [lia|].
  pose proof (ao_links _ _ _ _ Hao) as Hli.
  destruct (decide (n = 0)) as [->|Hn0].
  { rewrite (li_root_out _ _ _ _ _ _ Hli) in Ho. by apply (Hfresh 0). }
  destruct (ao_node_final _ _ _ _ Hao n w Hn Hn0)
    as (w' & f & u & o0 & inh & Hw' & Hf & Hu & (_ & Hlen & _) & _ &
        Ho0 & Ho' & Hinh).
  assert (w' = w) as -> by congruence.
  assert (o = o0 ++ inh) as -> by congruence.
  apply NoDup_app. split; [by apply (Hfresh n)|].
  case_decide; [subst inh; split; [by intros ?? ?%elem_of_nil|constructor]|].
  split; [|eapply (IH u); [lia|exact Hu|exact Hinh]].
  intros i Hi Hi'. apply (ao_direct _ _ _ _ Hao n o0 w i Ho0 Hn) in Hi.
  destruct (out_sound pats ac0 ac words fuel Hao Hfuel u f inh i)
    as (p & Hp & Hsuf%suffix_length); [done..|].
  assert (p = w) as -> by congruence. lia.
Qed.

Lemma NoDup_join_tagged {A} (tag : A → nat → Prop) (ls : list (list A)) :
  (∀ x k1 k2, tag x k1 → tag x k2 → k1 = k2) →
  ∀ base, (∀ k g, ls !! k = Some g → NoDup g ∧ ∀ x, x ∈ g → tag x (base + k)) →
  NoDup (mjoin ls).
Proof.
  intros Hfun. induction ls as [|g ls IH]; intros base Hls; [constructor|].
  change (mjoin (g :: ls)) with (g ++ mjoin ls).
  destruct (Hls 0 g eq_refl) as [Hg Htag]. apply NoDup_app. split; [done|]. split.
  - intros x Hx (g' & Hx' & [k Hk]%list_elem_of_lookup)%list_elem_of_join.
    destruct (Hls (S k) g' Hk) as [_ Htag'].
    pose proof (Hfun x _ _ (Htag x Hx) (Htag' x Hx')). lia.
  - apply (IH (S base)). intros k g' Hk. destruct (Hls (S k) g' Hk) as [? Ht].
    split; [done|]. intros x Hx. replace (S base + k) with (base + S k) by lia.
    by apply Ht.
Qed.

Lemma run_NoDup fuel pats text :
  total_len pats < fuel →
  ∃ ac ms, init fuel pats = Some ac ∧ search fuel ac text = Some ms ∧
    (∀ n o, output ac !! n = Some o → NoDup o) ∧ NoDup ms.
Proof.
  intros Hfuel.
  destruct (run_ok fuel pats text Hfuel)
    as (ac0 & ac & words & groups & Htrie & _ & Hinit & Hao & Hrun & Hgroups).
  pose proof (build_trie_fresh _ _ _ Htrie) as Hfresh.
  pose proof (ao_links _ _ _ _ Hao) as Hli.
  assert (Hout : ∀ n o, output ac !! n = Some o → NoDup o).
  { intros n o Ho. destruct (lookup_lt_is_Some_2 words n) as [w Hw].
    { rewrite <- (li_out_len _ _ _ _ _ _ Hli). eauto using lookup_lt_Some. }
    by eapply output_NoDup. }
  exists ac, (mjoin groups). split; [done|]. split; [done|]. split; [done|].
  apply (NoDup_join_tagged
    (λ m k, ∃ p, pats !! m.2 = Some p ∧ (m.1 + Z.of_nat (length p))%Z = Z.of_nat k)
    groups) with (base := 1).
  - intros [s i] k1 k2 (p1 & Hp1 & H1) (p2 & Hp2 & H2). simpl in *.
    assert (p1 = p2) as -> by congruence. lia.
  - intros k g Hg. destruct Hgroups as [Hlen Hgr].
    destruct (Hgr k g Hg) as (nd & w & outs & _ & _ & Houts & Hall). split.
    + apply Hout in Houts. clear Hg Hgr. induction Hall as [|i m outs g Hm Hall IH].
      * constructor.
      * apply NoDup_cons in Houts as [Hi Houts]. apply NoDup_cons.
        split; [|by apply IH]. intros [j Hj]%list_elem_of_lookup.
        destruct (Forall2_lookup_r _ _ _ _ _ Hall Hj) as (i' & Hi' & p' & _ & ->).
        destruct Hm as (p & _ & [= _ ->]). apply Hi. by eapply list_elem_of_lookup_2.
    + intros [s i] Hin.
      destruct (group_sound pats ac0 ac words fuel Hao Hfuel text groups k g s i)
        as (p & pre & Hp & _ & Hk & ->); [done..|].
      exists p. split; [done|]. simpl. lia.
Qed.

(** X6. No duplicates: no output list of the automaton holds an index
    twice, and the result of [search] holds no pair twice, so an occurrence
    of a pattern index is reported at most once. *)
Theorem search_NoDup fuel pats text :
  total_len pats < fuel →
  ∃ ac ms, init fuel pats = Some ac ∧ search fuel ac text = Some ms ∧
    (∀ n o, output ac !! n = Some o → NoDup o) ∧ NoDup ms.
Proof. apply run_NoDup. Qed.

Lemma search_NoDup_witness :
  ∃ ac ms, init 6 [str "aa"; str "aaa"] = Some ac ∧
    search 6 ac (str "aaaaa") = Some ms ∧
    (∀ n o, output ac !! n = Some o → NoDup o) ∧ NoDup ms.
Proof.
  apply (search_NoDup 6 [str "aa"; str "aaa"] (str "aaaaa")). vm_compute. lia.
Defined.

(** ** Reading the text piece by piece *)

Lemma for_each_app {A S} (body : A → S → option S) l1 l2 s :
  for_each body (l1 ++ l2) s = for_each body l1 s ≫= for_each body l2.
Proof.
  revert s. induction l1 as [|x l1 IH]; intros s; simpl; [done|].
  destruct (body x s) as [s'|]; simpl; [apply IH | done].
Qed.

Lemma enumerate_from_app {A} i (l1 l2 : list A) :
  enumerate_from i (l1 ++ l2) =
  enumerate_from i l1 ++ enumerate_from (i + length l1) l2.
Proof.
  revert i. induction l1 as [|x l1 IH]; intros i; simpl.
  - by rewrite Nat.add_0_r.
  - rewrite IH. do 3 f_equal. lia.
Qed.

Lemma search_app_ok pats ac0 ac words fuel t1 t2 :
  automaton_ok pats ac0 ac words → total_len pats < fuel →
  ∃ ms1 groups2,
    search fuel ac t1 = Some ms1 ∧
    search fuel ac (t1 ++ t2) = Some (ms1 ++ mjoin groups2) ∧
    length groups2 = length t2 ∧
    ∀ k g, groups2 !! k = Some g →
      ∃ nd w outs, words !! nd = Some w ∧
        longest_suffix words (t1 ++ take (S k) t2) w ∧
        output ac !! nd = Some outs ∧
        Forall2 (match_of pats (length t1 + k)) outs g.
Proof.
  intros Hao Hfuel. pose proof (ao_trie _ _ _ _ Hao) as Hok.
  destruct (search_loop_ok pats ac0 ac words fuel Hao Hfuel t1 [] 0 [] [])
    as (node1 & ws1 & groups1 & Hrun1 & Hnode1 & Hls1 & _).
  { eauto using tk_root. }
  { split; [done|]. split; [eauto using words_nil|]. by intros v ->%suffix_nil_inv. }
  simpl in Hrun1, Hls1.
  destruct (search_loop_ok pats ac0 ac words fuel Hao Hfuel t2 t1 node1 ws1
              (mjoin groups1) Hnode1 Hls1)
    as (node2 & ws2 & groups2 & Hrun2 & _ & _ & Hlen & Hgroups).
  exists (mjoin groups1), groups2.
  split; [unfold search, enumerate; by rewrite Hrun1|].
  split; [|done].
  unfold search, enumerate. rewrite enumerate_from_app, for_each_app, Hrun1.
  cbn [mbind option_bind]. simpl. by rewrite Hrun2.
Qed.

(** X7. Reading a longer text only appends: the result of [search] on
    [t1 ++ t2] starts with the result on [t1], and every further match ends
    after [t1]. *)
Theorem search_app fuel pats t1 t2 :
  total_len pats < fuel →
  ∃ ac ms1 ms2, init fuel pats = Some ac ∧
    search fuel ac t1 = Some ms1 ∧
    search fuel ac (t1 ++ t2) = Some (ms1 ++ ms2) ∧
    ∀ start i, (start, i) ∈ ms2 →
      ∃ p, pats !! i = Some p ∧
        (Z.of_nat (length t1) < start + Z.of_nat (length p))%Z.
Proof.
  intros Hfuel.
  destruct (init_ok fuel pats Hfuel) as (ac0 & ac & words & _ & _ & Hinit & Hao).
  destruct (search_app_ok pats ac0 ac words fuel t1 t2 Hao Hfuel)
    as (ms1 & groups2 & Hrun1 & Hrun & _ & Hgroups).
  exists ac, ms1, (mjoin groups2). split; [done|]. split; [done|]. split; [done|].
  intros start i (g & Hin & [k Hg]%list_elem_of_lookup)%list_elem_of_join.
  destruct (Hgroups k g Hg) as (_ & _ & outs & _ & _ & _ & Hall).
  apply list_elem_of_lookup in Hin as [j Hj].
  destruct (Forall2_lookup_r _ _ _ _ _ Hall Hj) as (i' & _ & p & Hp & [= -> ->]).
  exists p. split; [done|]. lia.
Qed.

Lemma search_app_witness :
  ∃ ac ms1 ms2, init 13 he_she_his_hers = Some ac ∧
    search 13 ac (str "ush") = Some ms1 ∧
    search 13 ac (str "ush" ++ str "ers") = Some (ms1 ++ ms2) ∧
    ∀ start i, (start, i) ∈ ms2 →
      ∃ p, he_she_his_hers !! i = Some p ∧
        (Z.of_nat (length (str "ush")) < start + Z.of_nat (length p))%Z.
Proof.
  apply (search_app 13 he_she_his_hers (str "ush") (str "ers")).
  vm_compute. lia.
Defined.

(** X8. A symbol that occurs in no pattern sends the automaton back to the
    root, whatever was read before: the matches emitted for it are those of
    the root's output list, and none at all when no pattern is the empty
    string. *)
Theorem foreign_symbol_resets fuel pats text c :
  total_len pats < fuel → (∀ p, p ∈ pats → c ∉ p) →
  ∃ ac ms root_out extra, init fuel pats = Some ac ∧
    search fuel ac text = Some ms ∧
    state_after fuel ac (text ++ [c]) = Some 0 ∧
    output ac !! 0 = Some root_out ∧
    search fuel ac (text ++ [c]) = Some (ms ++ extra) ∧
    Forall2 (match_of pats (length text)) root_out extra ∧
    ([] ∉ pats → extra = []).
Proof.
  intros Hfuel Hc.
  destruct (init_ok fuel pats Hfuel) as (ac0 & ac & words & _ & _ & Hinit & Hao).
  pose proof (ao_trie _ _ _ _ Hao) as Hok.
  assert (Hroot : ∀ w, longest_suffix words (text ++ [c]) w → w = []).
  { intros w (Hsuf & Hin%(words_pattern_prefix _ _ _ _ _ Hao) & _).
    apply suffix_snoc_cases in Hsuf as [->|(w' & -> & _)]; [done|].
    destruct Hin as [?|(p & Hp & [k ->])]; [by destruct w'|].
    destruct (Hc _ Hp). rewrite !elem_of_app, list_elem_of_singleton. auto. }
  destruct (search_app_ok pats ac0 ac words fuel text [c] Hao Hfuel)
    as (ms & groups2 & Hrun1 & Hrun & Hlen & Hgroups).
  destruct groups2 as [|g [|??]]; try done.
  destruct (Hgroups 0 g eq_refl) as (nd & w & outs & Hnd & Hw & Houts & Hall).
  simpl in Hw. rewrite Nat.add_0_r in Hall.
  apply Hroot in Hw as ->. assert (nd = 0) as -> by eauto using word_nil_root.
  destruct (state_after_ok pats ac0 ac words fuel Hao Hfuel (text ++ [c]))
    as (node & w & Hstate & Hnode & ->%Hroot).
  assert (node = 0) as -> by eauto using word_nil_root.
  exists ac, ms, outs, g. split; [done|]. split; [done|]. split; [done|].
  split; [done|]. split; [by rewrite Hrun; simpl; rewrite app_nil_r|].
  split; [done|]. intros Hne.
  destruct outs as [|i outs]; [by inversion Hall|]. destruct Hne.
  destruct (out_sound pats ac0 ac words fuel Hao Hfuel [] 0 (i :: outs) i)
    as (p & Hp & ->%suffix_nil_inv); [done|done|left|].
  by eapply list_elem_of_lookup_2.
Qed.

Lemma foreign_symbol_resets_witness :
  ∃ ac ms root_out extra, init 13 he_she_his_hers = Some ac ∧
    search 13 ac (str "ush") = Some ms ∧
    state_after 13 ac (str "ush" ++ [955%N]) = Some 0 ∧
    output ac !! 0 = Some root_out ∧
    search 13 ac (str "ush" ++ [955%N]) = Some (ms ++ extra) ∧
    Forall2 (match_of he_she_his_hers (length (str "ush"))) root_out extra ∧
    ([] ∉ he_she_his_hers → extra = []).
Proof.
  apply (foreign_symbol_resets 13 he_she_his_hers (str "ush") 955%N).
  - vm_compute. lia.
  - apply Forall_forall.
    apply (bool_decide_unpack (Forall (λ p, 955%N ∉ p) he_she_his_hers)).
    by vm_compute.
Defined.

(** * The helpers of main.py *)

(** ** [group_matches] *)

Lemma getitem_is_Some {A} (l : list A) i : is_Some (getitem l i) ↔ index_ok l i.
Proof.
  unfold getitem, index_ok. repeat case_decide; rewrite ?lookup_lt_is_Some.
  - lia.
  - lia.
  - split; [by intros [??]|lia].
Qed.

Lemma getitem_of_nat {A} (l : list A) (i : nat) : getitem l (Z.of_nat i) = l !! i.
Proof.
  unfold getitem. rewrite decide_True by lia. by rewrite Nat2Z.id.
Qed.

Lemma groups_get_append groups pat start pat' :
  groups_get (groups_append groups pat start) pat' =
  if decide (pat = pat')
  then Some (default [] (groups_get groups pat) ++ [start])
  else groups_get groups pat'.
Proof.
  induction groups as [|[k v] groups IH]; simpl.
  - repeat case_decide; congruence.
  - repeat (case_decide; simpl; subst); try congruence.
Qed.

Lemma groups_get_sorted groups pat :
  groups_get (map (λ kv, (kv.1, sort kv.2)) groups) pat
  = sort <$> groups_get groups pat.
Proof.
  induction groups as [|[k v] groups IH]; simpl; [done|]. by case_decide.
Qed.

Lemma starts_of_cons pats start pidx matches pat :
  starts_of pats ((start, pidx) :: matches) pat =
  if decide (getitem pats pidx = Some pat)
  then start :: starts_of pats matches pat else starts_of pats matches pat.
Proof. unfold starts_of. rewrite filter_cons. simpl. by case_decide. Qed.

Lemma elem_of_starts_of pats matches pat start :
  start ∈ starts_of pats matches pat ↔
  ∃ pidx, (start, pidx) ∈ matches ∧ getitem pats pidx = Some pat.
Proof.
  unfold starts_of. rewrite list_elem_of_fmap. split.
  - intros ([s i] & -> & [? ?]%list_elem_of_filter). eauto.
  - intros (pidx & Hin & Hp). exists (start, pidx). split; [done|].
    by apply list_elem_of_filter.
Qed.

(** The loop of lines 26-28, started from any dictionary. *)
Lemma group_loop_ok pats matches : ∀ groups,
  (∀ m, m ∈ matches → index_ok pats m.2) →
  ∃ groups', for_each (group_step pats) matches groups = Some groups' ∧
    ∀ pat, groups_get groups' pat =
      match starts_of pats matches pat with
      | [] => groups_get groups pat
      | l => Some (default [] (groups_get groups pat) ++ l)
      end.
Proof.
  induction matches as [|[start pidx] matches IH]; intros groups Hok.
  - by exists groups.
  - destruct (proj2 (getitem_is_Some pats pidx)) as [pat0 Hpat0].
    { apply (Hok (start, pidx)). left. }
    destruct (IH (groups_append groups pat0 start)) as (groups' & Hrun & Hget).
    { intros m Hm. apply Hok. by right. }
    exists groups'. simpl. rewrite Hpat0. simpl. split; [done|].
    intros pat. rewrite Hget, starts_of_cons, groups_get_append, Hpat0.
    destruct (decide (pat0 = pat)) as [->|Hne].
    + rewrite decide_True by done. simpl.
      destruct (starts_of pats matches pat); [done|].
      by rewrite <- app_assoc.
    + rewrite decide_False by congruence. done.
Qed.

Lemma group_loop_Some pats matches : ∀ groups groups',
  for_each (group_step pats) matches groups = Some groups' →
  ∀ m, m ∈ matches → index_ok pats m.2.
Proof.
  induction matches as [|[start pidx] matches IH]; intros groups groups'.
  - by intros _ ? ?%elem_of_nil.
  - simpl. intros (g1 & (pat & Hpat & _)%bind_Some & Hrun)%bind_Some m
      [->|Hm]%elem_of_cons.
    + apply getitem_is_Some. by exists pat.
    + by eapply IH.
Qed.

(** X9. [group_matches] returns a dictionary exactly when every pattern
    index of [matches] is a valid index of [patterns] (negative ones count
    from the end); otherwise it raises. *)
Theorem group_matches_defined matches pats :
  is_Some (group_matches matches pats) ↔
  ∀ m, m ∈ matches → index_ok pats m.2.
Proof.
  unfold group_matches. split.
  - intros [groups (g & Hg & _)%bind_Some]. by eapply group_loop_Some.
  - intros Hok. destruct (group_loop_ok pats matches [] Hok) as (g & -> & _).
    by eexists.
Qed.

Lemma sort_Sorted l : Sorted Z.le (sort l).
Proof. apply (Sorted_merge_sort Z.le). Qed.

Lemma sort_Permutation l : sort l ≡ₚ l.
Proof. apply merge_sort_Permutation. Qed.

Lemma group_matches_ok pats matches :
  (∀ m, m ∈ matches → index_ok pats m.2) →
  ∃ groups, group_matches matches pats = Some groups ∧
    ∀ pat, groups_get groups pat =
      match starts_of pats matches pat with
      | [] => None
      | l => Some (sort l)
      end.
Proof.
  intros Hok. destruct (group_loop_ok pats matches [] Hok) as (g & Hrun & Hget).
  unfold group_matches. rewrite Hrun. simpl. eexists. split; [done|].
  intros pat. rewrite groups_get_sorted, Hget. simpl.
  by destruct (starts_of pats matches pat).
Qed.

(** X10. The dictionary of [group_matches]: a pattern string is a key
    exactly when some match has that pattern; its list is sorted in
    ascending order and is a rearrangement of the start offsets of the
    matches with that pattern, one entry per match. *)
Theorem group_matches_groups matches pats :
  (∀ m, m ∈ matches → index_ok pats m.2) →
  ∃ groups, group_matches matches pats = Some groups ∧
    ∀ pat,
      (groups_get groups pat = None ↔
       ∀ start pidx, (start, pidx) ∈ matches → getitem pats pidx ≠ Some pat) ∧
      ∀ starts, groups_get groups pat = Some starts →
        Sorted Z.le starts ∧ starts ≡ₚ starts_of pats matches pat ∧
        ∀ start, start ∈ starts ↔
          ∃ pidx, (start, pidx) ∈ matches ∧ getitem pats pidx = Some pat.
Proof.
  intros Hok. destruct (group_matches_ok pats matches Hok) as (groups & Hrun & Hget).
  exists groups. split; [done|]. intros pat. rewrite Hget. split.
  - destruct (starts_of pats matches pat) as [|s l] eqn:Hs.
    + split; [|done]. intros _ start pidx Hin Hp.
      assert (start ∈ starts_of pats matches pat) as Hin'
        by (apply elem_of_starts_of; eauto).
      rewrite Hs in Hin'. by apply elem_of_nil in Hin'.
    + split; [done|]. intros Hnone.
      assert (s ∈ starts_of pats matches pat) as (pidx & ? & ?)%elem_of_starts_of
        by (rewrite Hs; left).
      by destruct (Hnone s pidx).
  - intros starts Hstarts.
    destruct (starts_of pats matches pat) as [|s l] eqn:Hs; [done|].
    injection Hstarts as <-. split; [apply sort_Sorted|].
    split; [apply sort_Permutation|].
    intros start. rewrite sort_Permutation, <- Hs. apply elem_of_starts_of.
Qed.

Lemma group_matches_groups_witness :
  ∃ groups,
    group_matches [(3%Z, (-1)%Z); (1%Z, 3%Z); (0%Z, 0%Z)] he_she_his_hers
      = Some groups ∧
    ∀ pat,
      (groups_get groups pat = None ↔
       ∀ start pidx, (start, pidx) ∈ [(3%Z, (-1)%Z); (1%Z, 3%Z); (0%Z, 0%Z)] →
         getitem he_she_his_hers pidx ≠ Some pat) ∧
      ∀ starts, groups_get groups pat = Some starts →
        Sorted Z.le starts ∧
        starts ≡ₚ starts_of he_she_his_hers
                    [(3%Z, (-1)%Z); (1%Z, 3%Z); (0%Z, 0%Z)] pat ∧
        ∀ start, start ∈ starts ↔
          ∃ pidx, (start, pidx) ∈ [(3%Z, (-1)%Z); (1%Z, 3%Z); (0%Z, 0%Z)] ∧
            getitem he_she_his_hers pidx = Some pat.
Proof.
  apply (group_matches_groups [(3%Z, (-1)%Z); (1%Z, 3%Z); (0%Z, 0%Z)]
           he_she_his_hers).
  apply Forall_forall.
  apply (bool_decide_unpack
    (Forall (λ m : Z * Z, index_ok he_she_his_hers m.2)
       [(3%Z, (-1)%Z); (1%Z, 3%Z); (0%Z, 0%Z)])).
  by vm_compute.
Defined.

(** ** [group_matches] on the result of [search] *)

Lemma run_exact fuel pats text :
  total_len pats < fuel →
  ∃ ac ms, init fuel pats = Some ac ∧ search fuel ac text = Some ms ∧
    NoDup ms ∧
    (∀ start i, (start, i) ∈ ms →
       ∃ p s, pats !! i = Some p ∧ start = Z.of_nat s ∧ occurs_at text p s) ∧
    (∀ i p s, pats !! i = Some p → p ≠ [] → occurs_at text p s →
       (Z.of_nat s, i) ∈ ms).
Proof.
  intros Hfuel.
  destruct (run_NoDup fuel pats text Hfuel) as (ac & ms & Hinit & Hrun & _ & Hnd).
  destruct (run_sound fuel pats text Hfuel) as (ac1 & ms1 & Hinit1 & Hrun1 & Hsound).
  destruct (run_complete fuel pats text Hfuel)
    as (ac2 & ms2 & Hinit2 & Hrun2 & Hcomplete).
  assert (ac1 = ac) as -> by congruence. assert (ac2 = ac) as -> by congruence.
  assert (ms1 = ms) as -> by congruence. assert (ms2 = ms) as -> by congruence.
  exists ac, ms. split; [done|]. split; [done|]. split; [done|]. split.
  - intros start i (p & pre & post & Hp & -> & ->)%Hsound.
    exists p, (length pre). split; [done|]. split; [done|]. by exists pre, post.
  - intros i p s Hi Hp (pre & post & -> & <-). by eapply Hcomplete.
Qed.

Lemma elem_of_as_ints ms start pidx :
  (start, pidx) ∈ as_ints ms ↔ ∃ i, pidx = Z.of_nat i ∧ (start, i) ∈ ms.
Proof.
  unfold as_ints. rewrite list_elem_of_fmap. split.
  - intros ([s i] & [= -> ->] & Hin). eauto.
  - intros (i & -> & Hin). by exists (start, i).
Qed.

(** X11. Grouping the result of a search never raises, and for every
    non-empty pattern string of the list: it is a key exactly when it occurs
    in the text; its list is sorted and holds exactly the offsets where it
    occurs; and the list has no repeated offset when the pattern list has no
    repeated string. *)
Theorem group_matches_of_search fuel pats text :
  total_len pats < fuel →
  ∃ ac ms groups, init fuel pats = Some ac ∧
    search fuel ac text = Some ms ∧
    group_matches (as_ints ms) pats = Some groups ∧
    ∀ pat, pat ∈ pats → pat ≠ [] →
      (groups_get groups pat = None ↔ ∀ s, ¬ occurs_at text pat s) ∧
      ∀ starts, groups_get groups pat = Some starts →
        Sorted Z.le starts ∧
        (∀ start, start ∈ starts ↔
           ∃ s, start = Z.of_nat s ∧ occurs_at text pat s) ∧
        (NoDup pats → NoDup starts).
Proof.
  intros Hfuel.
  destruct (run_exact fuel pats text Hfuel)
    as (ac & ms & Hinit & Hrun & Hnd & Hsound & Hcomplete).
  destruct (group_matches_ok pats (as_ints ms)) as (groups & Hgroups & Hget).
  { intros [start pidx] (i & -> & Hin)%elem_of_as_ints.
    destruct (Hsound _ _ Hin) as (p & _ & Hp & _). simpl.
    apply getitem_is_Some. rewrite getitem_of_nat. eauto. }
  exists ac, ms, groups. split; [done|]. split; [done|]. split; [done|].
  intros pat [i Hi]%list_elem_of_lookup Hne.
  assert (Hmem : ∀ start, start ∈ starts_of pats (as_ints ms) pat ↔
            ∃ s, start = Z.of_nat s ∧ occurs_at text pat s).
  { intros start. rewrite elem_of_starts_of. split.
    - intros (pidx & (j & -> & Hin)%elem_of_as_ints & Hp).
      rewrite getitem_of_nat in Hp.
      destruct (Hsound _ _ Hin) as (p & s & Hp' & -> & Hocc).
      assert (p = pat) as -> by congruence. eauto.
    - intros (s & -> & Hocc). exists (Z.of_nat i).
      split; [|by rewrite getitem_of_nat].
      apply elem_of_as_ints. exists i. split; [done|]. by eapply Hcomplete. }
  rewrite Hget. split.
  - destruct (starts_of pats (as_ints ms) pat) as [|s0 l] eqn:Hs.
    + split; [|done]. intros _ s Hocc.
      apply (elem_of_nil (Z.of_nat s)), Hmem. eauto.
    + split; [done|]. intros Hnone.
      destruct (proj1 (Hmem s0)) as (s & _ & Hocc); [left|].
      by destruct (Hnone s).
  - intros starts Hstarts.
    destruct (starts_of pats (as_ints ms) pat) as [|s0 l] eqn:Hs; [done|].
    injection Hstarts as <-. split; [apply sort_Sorted|]. split.
    + intros start. rewrite sort_Permutation. apply Hmem.
    + intros Hpats. rewrite sort_Permutation, <- Hs. unfold starts_of.
      apply NoDup_fmap_2_strong.
      * intros [s1 i1] [s2 i2] [H1 Hin1]%list_elem_of_filter
          [H2 Hin2]%list_elem_of_filter Heq. simpl in *. subst s2.
        apply elem_of_as_ints in Hin1 as (j1 & -> & _).
        apply elem_of_as_ints in Hin2 as (j2 & -> & _).
        rewrite getitem_of_nat in H1, H2.
        by rewrite (NoDup_lookup _ _ _ _ Hpats H1 H2).
      * apply NoDup_filter. unfold as_ints. apply NoDup_fmap_2_strong; [|done].
        intros [s1 i1] [s2 i2] _ _ [= -> ?%Nat2Z.inj]. by subst.
Qed.

Lemma group_matches_of_search_witness :
  ∃ ac ms groups, init 13 he_she_his_hers = Some ac ∧
    search 13 ac (str "ushers") = Some ms ∧
    group_matches (as_ints ms) he_she_his_hers = Some groups ∧
    ∀ pat, pat ∈ he_she_his_hers → pat ≠ [] →
      (groups_get groups pat = None ↔ ∀ s, ¬ occurs_at (str "ushers") pat s) ∧
      ∀ starts, groups_get groups pat = Some starts →
        Sorted Z.le starts ∧
        (∀ start, start ∈ starts ↔
           ∃ s, start = Z.of_nat s ∧ occurs_at (str "ushers") pat s) ∧
        (NoDup he_she_his_hers → NoDup starts).
Proof.
  apply (group_matches_of_search 13 he_she_his_hers (str "ushers")).
  vm_compute. lia.
Defined.

(** ** [snippet_with_highlight] *)

Lemma slice_bound_nat n a : slice_bound n (Z.of_nat a) = a `min` n.
Proof. unfold slice_bound. case_decide; lia. Qed.

Lemma py_slice_nat {A} (l : list A) a b :
  py_slice l (Z.of_nat a) (Z.of_nat b) =
  take (b `min` length l - a `min` length l) (drop (a `min` length l) l).
Proof. unfold py_slice. by rewrite !slice_bound_nat. Qed.

Lemma py_slice_occurrence {A} (pre p post : list A) :
  py_slice (pre ++ p ++ post) (Z.of_nat (length pre))
    (Z.of_nat (length pre) + Z.of_nat (length p)) = p.
Proof.
  rewrite <- Nat2Z.inj_add, py_slice_nat, !length_app.
  replace (length pre `min` _) with (length pre) by lia.
  replace (_ - length pre) with (length p) by lia.
  by rewrite drop_app_length, take_app_length.
Qed.

Lemma take_min_length {A} (l : list A) c :
  take (c `min` length l) l = take c l.
Proof.
  destruct (decide (c ≤ length l)).
  - by replace (c `min` length l) with c by lia.
  - replace (c `min` length l) with (length l) by lia.
    by rewrite firstn_all, take_ge by lia.
Qed.

(** X12. The snippet of an occurrence: for a text [pre ++ pat ++ post],
    the offset and the length of [pat] and a context [c ≥ 0], the pieces are
    the quote, an ellipsis exactly when more than [c] symbols precede the
    occurrence, the last [c] symbols of [pre], [pat] itself as the one piece
    styled bold cyan, the first [c] symbols of [post], an ellipsis exactly
    when more than [c] symbols follow, and the quote. *)
Theorem snippet_of_occurrence (pre pat post : list symbol) (context : Z) :
  (0 ≤ context)%Z →
  snippet_with_highlight (pre ++ pat ++ post)
    (Z.of_nat (length pre)) (Z.of_nat (length pat)) context =
  [(quote, None)] ++
  (if decide (Z.to_nat context < length pre) then [(ellipsis, None)] else []) ++
  [(drop (length pre - Z.to_nat context) pre, None);
   (pat, Some "bold cyan"%string);
   (take (Z.to_nat context) post, None)] ++
  (if decide (Z.to_nat context < length post)
   then [(ellipsis, None)] else []) ++
  [(quote, None)].
Proof.
  intros Hc. unfold snippet_with_highlight. cbv zeta.
  rewrite py_slice_occurrence.
  set (c := Z.to_nat context).
  replace (Z.max 0 (Z.of_nat (length pre) - context))
    with (Z.of_nat (length pre - c)) by lia.
  replace (Z.min (Z.of_nat (length (pre ++ pat ++ post)))
             (Z.of_nat (length pre) + Z.of_nat (length pat) + context))
    with (Z.of_nat ((length pre + length pat + c) `min`
                      length (pre ++ pat ++ post))) by lia.
  rewrite <- Nat2Z.inj_add, !py_slice_nat, !length_app.
  replace (length pre `min` _) with (length pre) by lia.
  replace ((length pre - c) `min` _) with (length pre - c) by lia.
  replace ((length pre + length pat) `min` _)
    with (length (pre ++ pat)) by (rewrite length_app; lia).
  replace (((length pre + length pat + c) `min` _) `min` _ - _)
    with (c `min` length post) by (rewrite length_app; lia).
  rewrite (assoc_L (++) pre pat post), drop_app_length, take_min_length.
  rewrite <- (assoc_L (++) pre pat post), drop_app_le by lia.
  rewrite take_app_length' by (rewrite length_drop; lia).
  repeat case_decide; try lia; done.
Qed.

Lemma snippet_of_occurrence_witness :
  snippet_with_highlight (str "us" ++ str "he" ++ str "rs") 2 2 1 =
  [(quote, None); (ellipsis, None); (str "s", None);
   (str "he", Some "bold cyan"%string); (str "r", None); (ellipsis, None);
   (quote, None)].
Proof. apply (snippet_of_occurrence (str "us") (str "he") (str "rs") 1). lia. Defined.




(** ** The state of the search *)

(** X14. The state of the search: after reading [text] the current node is
    the node of the trie that spells the longest suffix of [text] that is a
    prefix of some pattern (the root, which spells the empty string, if no
    other suffix is one). *)
Theorem state_is_longest_suffix fuel pats text :
  total_len pats < fuel →
  ∃ ac0 ac node w,
    build_trie (mkAhoCorasick pats [[]] [0] []) = Some ac0 ∧
    build_fail_links fuel ac0 = Some ac ∧
    state_after fuel ac text = Some node ∧
    walk (trie ac0) 0 w = Some node ∧
    w `suffix_of` text ∧ pattern_prefix pats w ∧
    ∀ v, v `suffix_of` text → pattern_prefix pats v → v `suffix_of` w.
Proof.
  intros Hfuel.
  destruct (init_ok fuel pats Hfuel) as (ac0 & ac & words & Htrie & Hlinks & _ & Hao).
  destruct (state_after_ok pats ac0 ac words fuel Hao Hfuel text)
    as (node & w & Hstate & Hnode & Hsuf & Hin & Hmax).
  exists ac0, ac, node, w. split; [done|]. split; [done|]. split; [done|].
  split; [by apply (walk_iff_word _ _ _ _ _ _ Hao)|]. split; [done|].
  split; [by apply (words_pattern_prefix _ _ _ _ _ Hao)|].
  intros v Hv Hvp. apply Hmax; [done|].
  by apply (words_pattern_prefix _ _ _ _ _ Hao).
Qed.

Lemma state_is_longest_suffix_witness :
  ∃ ac0 ac node w,
    build_trie (mkAhoCorasick he_she_his_hers [[]] [0] []) = Some ac0 ∧
    build_fail_links 13 ac0 = Some ac ∧
    state_after 13 ac (str "ushers") = Some node ∧
    walk (trie ac0) 0 w = Some node ∧
    w `suffix_of` str "ushers" ∧ pattern_prefix he_she_his_hers w ∧
    ∀ v, v `suffix_of` str "ushers" → pattern_prefix he_she_his_hers v →
      v `suffix_of` w.
Proof.
  apply (state_is_longest_suffix 13 he_she_his_hers (str "ushers")).
  vm_compute. lia.
Defined.
